(** * zdq: command resolution and the multi-configuration execution loop

    A shallow embedding of [src/index.js].  The script is a single async
    function that classifies the command-line tokens, loads the
    configuration store from [~/.zdq.json] and then, per configuration,
    compiles with zig and runs the result inside a docker container.

    The embedding keeps the shape of the script:
    - JavaScript values are an inductive type, with the property access,
      truthiness and string conversion the script relies on;
    - the token array with its mutable [consumed] flags is a list of
      records, and a token reference ([command], [file]) is an index into
      that list, so that marking a token consumed is visible through
      every reference to it;
    - effects (writes to stdout and stderr, directory creation, child
      processes) are appended to a trace; thrown errors, [process.exit]
      and the death of the process on an exception nobody can catch are
      results of a small state-and-error monad. *)

From Stdlib Require Import String Ascii List ZArith NArith Bool Lia.
From Stdlib Require Import DecimalString.
Import ListNotations.
Set Warnings "-register-all".
Local Open Scope string_scope.
Local Open Scope list_scope.

(** ** JavaScript values *)

(** The values the script can hold.  A number is kept as its canonical
    rendering (what [String(n)] gives), which is all the script ever
    looks at: the rendering in a template literal, and whether the number
    is zero.  Strings are sequences of code units below 256. *)
Inductive Value : Type :=
| VUndefined
| VNull
| VBool (b : bool)
| VNum (repr : string)
| VStr (s : string)
| VArr (elems : list Value)
| VObj (props : list (string * Value))
| VFun (name : string).

(** The document [JSON.parse] reads: object members in the order of the
    text, repeated keys included.  A number stands for its value, which
    [repr] names by the canonical rendering ([0] for what the text
    writes [0.0] or [-0], [1000] for [1e3]): the text of the file is
    not looked at again once it is parsed. *)
Inductive Json : Type :=
| JNull
| JBool (b : bool)
| JNumber (repr : string)
| JString (s : string)
| JArray (elems : list Json)
| JObject (members : list (string * Json)).

(** Which builtin prototype a value inherits from. *)
Inductive Kind : Type :=
| KObject | KArray | KString | KNumber | KBoolean | KFunction.

Definition kind_of (v : Value) : Kind :=
  match v with
  | VArr _ => KArray
  | VStr _ => KString
  | VNum _ => KNumber
  | VBool _ => KBoolean
  | VFun _ => KFunction
  | _ => KObject
  end.

(** [ToBoolean]: what [if (!selected)] and [(selected) ? .. : ..] test. *)
Definition truthy (v : Value) : bool :=
  match v with
  | VUndefined | VNull => false
  | VBool b => b
  | VNum r => negb (r =? "0")
  | VStr s => negb (s =? "")
  | VArr _ | VObj _ | VFun _ => true
  end.

Fixpoint assoc {A : Type} (k : string) (l : list (string * A)) : option A :=
  match l with
  | [] => None
  | (k', v) :: r => if k' =? k then Some v else assoc k r
  end.

Definition string_of_nat (n : nat) : string :=
  NilZero.string_of_uint (Nat.to_uint n).

(** An array index is the canonical decimal rendering of an integer in
    [0, 2^32 - 2]: no sign, no leading zero. *)
Definition array_index (k : string) : option N :=
  match NilEmpty.uint_of_string k with
  | Some d =>
      let n := N.of_uint d in
      if (NilZero.string_of_uint (N.to_uint n) =? k) && (n <? 4294967295)%N
      then Some n else None
  | None => None
  end.

Definition is_array_index (k : string) : bool :=
  match array_index k with Some _ => true | None => false end.

(** *** Objects as ordered property tables

    A plain object is its list of own properties in the order
    [Object.keys], [Object.values] and [Object.entries] enumerate them:
    array-index keys first, in ascending numeric order, then the other
    keys in the order they were first created. *)

Fixpoint replace_property (ps : list (string * Value)) (k : string) (v : Value)
  : list (string * Value) :=
  match ps with
  | [] => []
  | (k', v') :: r =>
      if k' =? k then (k', v) :: r else (k', v') :: replace_property r k v
  end.

(** Place a new array-index key [k] (of number [n]) before the first key
    that is not an array index or is a larger one. *)
Fixpoint insert_index (ps : list (string * Value)) (n : N) (k : string) (v : Value)
  : list (string * Value) :=
  match ps with
  | [] => [(k, v)]
  | (k', v') :: r =>
      match array_index k' with
      | Some n' =>
          if (n' <? n)%N then (k', v') :: insert_index r n k v
          else (k, v) :: (k', v') :: r
      | None => (k, v) :: (k', v') :: r
      end
  end.

(** [CreateDataProperty]: what [JSON.parse] does with each member. *)
Definition create_data_property (ps : list (string * Value)) (k : string) (v : Value)
  : list (string * Value) :=
  match assoc k ps with
  | Some _ => replace_property ps k v
  | None =>
      match array_index k with
      | Some n => insert_index ps n k v
      | None => ps ++ [(k, v)]
      end
  end.

Definition build_object (members : list (string * Value)) : list (string * Value) :=
  fold_left (fun ps m => create_data_property ps (fst m) (snd m)) members [].

(** The value [JSON.parse] returns for a document. *)
Fixpoint reify (j : Json) : Value :=
  match j with
  | JNull => VNull
  | JBool b => VBool b
  | JNumber r => VNum r
  | JString s => VStr s
  | JArray l => VArr (map reify l)
  | JObject ms => VObj (build_object (map (fun m => (fst m, reify (snd m))) ms))
  end.

(** *** Property access *)

Definition chars (s : string) : list Value :=
  map (fun c => VStr (String c EmptyString)) (list_ascii_of_string s).

Definition indexed (l : list Value) (k : string) : option Value :=
  match array_index k with
  | Some n => nth_error l (N.to_nat n)
  | None =>
      if k =? "length" then Some (VNum (string_of_nat (List.length l))) else None
  end.

(** Own properties of a value (after boxing, for primitives). *)
Definition own_property (v : Value) (k : string) : option Value :=
  match v with
  | VObj ps => assoc k ps
  | VArr l => indexed l k
  | VStr s => indexed (chars s) k
  | _ => None
  end.

(** A property read with a fixed name, [config.zig], [zig.arch] and the
    like.  No builtin prototype has a property named [zig], [docker],
    [arch], [platform] or [image], so only own properties count; on
    [undefined] and [null] the read throws, which is [None] here. *)
Definition field (v : Value) (k : string) : option Value :=
  match v with
  | VUndefined | VNull => None
  | _ => Some (match own_property v k with Some x => x | None => VUndefined end)
  end.

(** The standard properties of [Object.prototype], which every plain
    object inherits: [obj[k]] finds them when [obj] has no own [k]. *)
Definition object_prototype : list (string * Value) :=
  [ ("constructor", VFun "Object");
    ("__defineGetter__", VFun "__defineGetter__");
    ("__defineSetter__", VFun "__defineSetter__");
    ("hasOwnProperty", VFun "hasOwnProperty");
    ("__lookupGetter__", VFun "__lookupGetter__");
    ("__lookupSetter__", VFun "__lookupSetter__");
    ("isPrototypeOf", VFun "isPrototypeOf");
    ("propertyIsEnumerable", VFun "propertyIsEnumerable");
    ("toString", VFun "toString");
    ("valueOf", VFun "valueOf");
    ("__proto__", VObj []);
    ("toLocaleString", VFun "toLocaleString") ].

(** [Object.values] and [Object.entries]; both throw on [null]. *)
Definition enumerate (l : list Value) : list (string * Value) :=
  combine (map string_of_nat (seq 0 (List.length l))) l.

Definition object_entries (v : Value) : option (list (string * Value)) :=
  match v with
  | VUndefined | VNull => None
  | VObj ps => Some ps
  | VArr l => Some (enumerate l)
  | VStr s => Some (enumerate (chars s))
  | _ => Some []
  end.

Definition object_values (v : Value) : option (list Value) :=
  option_map (map snd) (object_entries v).

(** [ToString], as a template literal applies it.  An object parsed from
    JSON renders as [[object Object]] unless it has an own [toString]
    property, which (no JSON value being callable) makes the conversion
    throw: [None].  An array joins its elements with commas, [null] and
    [undefined] elements rendering as nothing. *)
Fixpoint to_string (v : Value) : option string :=
  match v with
  | VUndefined => Some "undefined"
  | VNull => Some "null"
  | VBool true => Some "true"
  | VBool false => Some "false"
  | VNum r => Some r
  | VStr s => Some s
  | VArr l =>
      let fix elems (l : list Value) : option (list string) :=
        match l with
        | [] => Some []
        | x :: r =>
            match (match x with
                   | VUndefined | VNull => Some ""
                   | _ => to_string x
                   end), elems r with
            | Some s, Some ss => Some (s :: ss)
            | _, _ => None
            end
        end in
      option_map (String.concat ",") (elems l)
  | VObj ps =>
      match assoc "toString" ps with
      | None => Some "[object Object]"
      | Some _ => None
      end
  | VFun n => Some ("function " ++ n ++ "() { [native code] }")%string
  end.

(** ** Effects *)

(** What the script itself does to the outside, in the order it does it:
    the calls of [process.stdout.write], [process.stderr.write], [mkdir]
    and [spawn].  The children inherit the three standard streams; what
    they write there, and what the runtime reports about an exception
    that kills the process, is not recorded. *)
Inductive Event : Type :=
| Stdout (text : string)
| Stderr (text : string)
| Mkdir (path : string)
| Spawn (cmd : string) (args : list Value).

Definition Trace := list Event.

Inductive Error : Type :=
| TypeError
| FsError (code : string)
| ExitCodeError (code : Z)
| SpawnError.

(** A computation returns, throws, ends the process with
    [process.exit], or the process dies of an exception raised outside
    the async function and its promises (an [error] event that has no
    listener): no [catch] sees that one, and nothing runs after it. *)
Inductive Result (A : Type) : Type :=
| Ret (a : A)
| Throw (e : Error)
| Exit (status : Z)
| Uncaught (e : Error).

Arguments Ret {A} a.
Arguments Throw {A} e.
Arguments Exit {A} status.
Arguments Uncaught {A} e.

Definition M (A : Type) : Type := Trace -> Result A * Trace.

Definition ret {A : Type} (a : A) : M A := fun t => (Ret a, t).

Definition bind {A B : Type} (m : M A) (f : A -> M B) : M B :=
  fun t =>
    match m t with
    | (Ret a, t') => f a t'
    | (Throw e, t') => (Throw e, t')
    | (Exit c, t') => (Exit c, t')
    | (Uncaught e, t') => (Uncaught e, t')
    end.

Definition throw {A : Type} (e : Error) : M A := fun t => (Throw e, t).

(** [process.exit(status)]: nothing after it runs, no [catch] sees it. *)
Definition exit {A : Type} (status : Z) : M A := fun t => (Exit status, t).

(** [try { m } catch (err) { handler err }] *)
Definition try_catch {A : Type} (m : M A) (handler : Error -> M A) : M A :=
  fun t =>
    match m t with
    | (Throw e, t') => handler e t'
    | r => r
    end.

Definition emit (e : Event) : M unit := fun t => (Ret tt, t ++ [e]).

Definition lift {A : Type} (o : option A) : M A :=
  match o with
  | Some a => ret a
  | None => throw TypeError
  end.

Declare Scope js_scope.
Delimit Scope js_scope with js.
Notation "x <- m ;; k" := (bind m (fun x => k))
  (at level 61, m at next level, right associativity) : js_scope.
Notation "m ;; k" := (bind m (fun _ => k))
  (at level 61, right associativity) : js_scope.
Local Open Scope js_scope.

(** ** The host *)

(** What comes of a call of [spawn]: the child runs and its [close]
    event carries an exit code, or [null] when a signal ended the child;
    or [spawn] itself throws inside the promise executor, which rejects
    the promise; or the child cannot be started (no such program, no
    permission) and reports that through an [error] event. *)
Inductive ChildResult : Type :=
| Close (code : option Z)
| SpawnThrows
| ErrorEvent.

(** Everything the script asks of its environment.  What a directory
    creation or a child process answers may depend on all that happened
    before. *)
Record World : Type := {
  os_arch : string;
  os_tmpdir : string;
  os_homedir : option string;
  path_join : list string -> string;
  path_name : string -> string;
  fs_readFile : string -> option string;
  JSON_parse : string -> option Json;
  inherited : Kind -> string -> Value;
  fs_mkdir : Trace -> string -> option string;
  child_close : Trace -> string -> list Value -> ChildResult
}.

Definition nl : string := String (ascii_of_nat 10) EmptyString.
Definition quote : string := String (ascii_of_nat 34) EmptyString.

(** [print] and [log], lines 219-225. *)
Definition print (text : string) : M unit := emit (Stdout text).
Definition log (text : string) : M unit := emit (Stderr text).

(** [fs.mkdir(path, { recursive: true })]: [fs_mkdir] answers [Some code]
    when the promise rejects with [err.code = code]. *)
Definition mkdir (w : World) (path : string) : M unit :=
  fun t =>
    match fs_mkdir w t path with
    | None => (Ret tt, t ++ [Mkdir path])
    | Some code => (Throw (FsError code), t ++ [Mkdir path])
    end.

Definition has_code (e : Error) (c : string) : bool :=
  match e with
  | FsError code => code =? c
  | _ => false
  end.

(** [makeDir], lines 209-217. *)
Definition makeDir (w : World) (path : string) : M unit :=
  try_catch (mkdir w path)
    (fun err => if negb (has_code err "EEXIST") then throw err else ret tt).

(** [run], lines 191-207: the promise resolves when the child closes
    with a falsy code ([0] or [null]) and rejects otherwise.  The only
    listener is the one for [close]: the [error] event of a child that
    cannot be started is emitted with nobody listening, which raises the
    error in the event loop, outside the promise and outside every [try]
    of the callers, and the process dies. *)
Definition run (w : World) (cmd : string) (args : list Value) : M unit :=
  fun t =>
    match child_close w t cmd args with
    | Close None => (Ret tt, t ++ [Spawn cmd args])
    | Close (Some code) =>
        if (code =? 0)%Z then (Ret tt, t ++ [Spawn cmd args])
        else (Throw (ExitCodeError code), t ++ [Spawn cmd args])
    | SpawnThrows => (Throw SpawnError, t ++ [Spawn cmd args])
    | ErrorEvent => (Uncaught SpawnError, t ++ [Spawn cmd args])
    end.

(** [obj[key]] with a computed key: own property first, then the
    prototype chain; throws on [null] and [undefined]. *)
Definition get (w : World) (obj : Value) (key : string) : M Value :=
  match obj with
  | VUndefined | VNull => throw TypeError
  | _ =>
      match own_property obj key with
      | Some v => ret v
      | None => ret (inherited w (kind_of obj) key)
      end
  end.

(** [obj.name], throwing on [null] and [undefined]. *)
Definition prop (obj : Value) (name : string) : M Value := lift (field obj name).

(** A value inside a template literal. *)
Definition str (v : Value) : M string := lift (to_string v).

Fixpoint strings (l : list Value) : option (list string) :=
  match l with
  | [] => Some []
  | VStr s :: r => option_map (cons s) (strings r)
  | _ :: _ => None
  end.

(** [path.join]: every argument must be a string, or it throws. *)
Definition join (w : World) (args : list Value) : M string :=
  match strings args with
  | Some l => ret (path_join w l)
  | None => throw TypeError
  end.

(** The template [`${obj.a}<sep>${obj.b}`]. *)
Definition pair_text (obj : Value) (a sep b : string) : M string :=
  x <- prop obj a ;;
  sx <- str x ;;
  y <- prop obj b ;;
  sy <- str y ;;
  ret (sx ++ sep ++ sy)%string.

(** [const { zig, docker } = config] *)
Definition destructure (config : Value) : M (Value * Value) :=
  zig <- prop config "zig" ;;
  docker <- prop config "docker" ;;
  ret (zig, docker).

(** ** Tokens *)

Record Token : Type := {
  value : string;
  flags : bool;
  consumed : bool
}.

(** Line 12. *)
Definition mk_token (v : string) : Token :=
  {| value := v; flags := prefix "-" v; consumed := false |}.

(** [tokens.find(p)], as the position of the token found. *)
Fixpoint find_index {A : Type} (p : A -> bool) (l : list A) : option nat :=
  match l with
  | [] => None
  | x :: r => if p x then Some 0 else option_map S (find_index p r)
  end.

Definition deref (tokens : list Token) (i : nat) : Token :=
  nth i tokens {| value := ""; flags := false; consumed := false |}.

(** [tokens[i].consumed = true] *)
Fixpoint consume (i : nat) (tokens : list Token) {struct tokens} : list Token :=
  match tokens, i with
  | [], _ => []
  | t :: r, 0 => {| value := value t; flags := flags t; consumed := true |} :: r
  | t :: r, S j => t :: consume j r
  end.

Definition positional (t : Token) : bool := negb (flags t).
Definition unconsumed_positional (t : Token) : bool :=
  negb (flags t) && negb (consumed t).
Definition unconsumed (t : Token) : bool := negb (consumed t).

Definition includes (l : list string) (s : string) : bool :=
  existsb (String.eqb s) l.

(** Line 8. *)
Definition availableCommands : list string := ["test"; "run"; "list"; "help"].

(** ** The configuration store *)

(** [getDefaultConfig], lines 166-178. *)
Definition getDefaultConfig (w : World) : Value :=
  VObj [ ("zig",
          VObj [ ("arch", VStr (if os_arch w =? "x64" then "aarch64" else "x86_64"));
                 ("platform", VStr "linux") ]);
         ("docker",
          VObj [ ("arch", VStr (if os_arch w =? "x64" then "arm64" else "amd64"));
                 ("platform", VStr "linux");
                 ("image", VStr "ubuntu") ]) ].

(** [v.a.b] on a value known not to throw, and the property key a value
    makes in [{ [v]: .. }]. *)
Definition read (v : Value) (name : string) : Value :=
  match field v name with Some x => x | None => VUndefined end.

Definition property_key (v : Value) : string :=
  match to_string v with Some s => s | None => "" end.

(** The [try] block of [loadConfigurations]: [None] when anything in it
    throws ([os.homedir], [readFile] or [JSON.parse]). *)
Definition read_store (w : World) : option Value :=
  match os_homedir w with
  | Some home =>
      match fs_readFile w (path_join w [home; ".zdq.json"]) with
      | Some json => option_map reify (JSON_parse w json)
      | None => None
      end
  | None => None
  end.

(** [loadConfigurations], lines 180-189. *)
Definition loadConfigurations (w : World) : Value :=
  match read_store w with
  | Some store => store
  | None =>
      let def := getDefaultConfig w in
      VObj (create_data_property [] (property_key (read (read def "docker") "arch")) def)
  end.

(** ** Presentation *)

(** The body of the loop of [listConfigurations], lines 145-151; the
    entry is destructured before anything is printed. *)
Definition list_entry (name : string) (descriptor : Value) : M unit :=
  zd <- destructure descriptor ;;
  let zig := fst zd in
  let docker := snd zd in
  print (name ++ ":" ++ nl)%string ;;
  target <- pair_text zig "arch" "-" "platform" ;;
  print ("    Zig compile target: " ++ target ++ nl)%string ;;
  environment <- pair_text docker "platform" "/" "arch" ;;
  print ("    Docker environment: " ++ environment ++ nl)%string ;;
  image <- (i <- prop docker "image" ;; str i) ;;
  print ("                 image: " ++ image ++ nl)%string ;;
  print nl.

Fixpoint list_entries (entries : list (string * Value)) : M unit :=
  match entries with
  | [] => ret tt
  | (name, descriptor) :: rest => list_entry name descriptor ;; list_entries rest
  end.

(** [listConfigurations], lines 144-152. *)
Definition listConfigurations (availableConfigs : Value) : M unit :=
  entries <- lift (object_entries availableConfigs) ;;
  list_entries entries.

Definition help_text : list string :=
  [ ("Usage: zdq [config] <command>" ++ nl)%string;
    nl;
    ("Commands:" ++ nl)%string;
    ("  test             Perform unit testing" ++ nl)%string;
    ("  run              Create executable and run immediately" ++ nl)%string;
    nl;
    ("  list             List available configurations" ++ nl)%string;
    ("  help             Print this help and exit" ++ nl)%string;
    nl ].

(** [printHelp], lines 154-164. *)
Definition printHelp : M unit :=
  fun t => (Ret tt, t ++ map Stdout help_text).

(** ** Building and running *)

(** [file.value] on a reference that may be [undefined]. *)
Definition file_value (file : option Token) : M string :=
  lift (option_map value file).

(** The body of the [try] block of [runTest], lines 70-101. *)
Definition runTest_body (w : World) (file : option Token) (config : Value)
    (extras : list string) : M nat :=
  zd <- destructure config ;;
  let zig := fst zd in
  let docker := snd zd in
  fv <- file_value file ;;
  let info_name := path_name w fv in
  za <- prop zig "arch" ;;
  zp <- prop zig "platform" ;;
  dir <- join w [VStr (os_tmpdir w); VStr "zdq"; za; zp] ;;
  let name := (info_name ++ ".test")%string in
  path <- join w [VStr dir; VStr name] ;;
  makeDir w dir ;;
  target <- pair_text zig "arch" "-" "platform" ;;
  fv <- file_value file ;;
  run w "zig"
    ([ VStr "test"; VStr "--test-no-exec"; VStr "-target"; VStr target;
       VStr ("-femit-bin=" ++ path)%string;
       VStr fv ] ++ map VStr extras) ;;
  target_dir <- pair_text zig "arch" "/" "platform" ;;
  let dirVM := ("/home/zdq/" ++ target_dir)%string in
  environment <- pair_text docker "platform" "/" "arch" ;;
  print ("Running test in " ++ environment ++ ":" ++ nl)%string ;;
  platform <- pair_text docker "platform" "/" "arch" ;;
  image <- prop docker "image" ;;
  run w "docker"
    [ VStr "run"; VStr "--platform"; VStr platform;
      VStr "-v"; VStr (dir ++ ":" ++ dirVM)%string;
      VStr "-w"; VStr dirVM;
      VStr "--rm"; VStr "-t"; VStr "-q";
      image;
      VStr ("./" ++ name)%string ] ;;
  ret 0.

(** [runTest], lines 68-105. *)
Definition runTest (w : World) (file : option Token) (config : Value)
    (extras : list string) : M nat :=
  try_catch (runTest_body w file config extras) (fun _ => ret 1).

(** The body of the [try] block of [runProgram], lines 109-138. *)
Definition runProgram_body (w : World) (file : option Token) (config : Value)
    (extras : list string) : M nat :=
  zd <- destructure config ;;
  let zig := fst zd in
  let docker := snd zd in
  fv <- file_value file ;;
  let info_name := path_name w fv in
  za <- prop zig "arch" ;;
  zp <- prop zig "platform" ;;
  dir <- join w [VStr (os_tmpdir w); VStr "zdq"; za; zp] ;;
  let name := info_name in
  path <- join w [VStr dir; VStr name] ;;
  makeDir w dir ;;
  target <- pair_text zig "arch" "-" "platform" ;;
  fv <- file_value file ;;
  run w "zig"
    ([ VStr "build-exe"; VStr "-target"; VStr target;
       VStr ("-femit-bin=" ++ path)%string;
       VStr fv ] ++ map VStr extras) ;;
  target_dir <- pair_text zig "arch" "/" "platform" ;;
  let dirVM := ("/home/zdq/" ++ target_dir)%string in
  environment <- pair_text docker "platform" "/" "arch" ;;
  print ("Running executable in " ++ environment ++ ":" ++ nl)%string ;;
  platform <- pair_text docker "platform" "/" "arch" ;;
  image <- prop docker "image" ;;
  run w "docker"
    [ VStr "run"; VStr "--platform"; VStr platform;
      VStr "-v"; VStr (dir ++ ":" ++ dirVM)%string;
      VStr "-w"; VStr dirVM;
      VStr "--rm"; VStr "-t";
      image;
      VStr ("./" ++ name)%string ] ;;
  ret 0.

(** [runProgram], lines 107-142. *)
Definition runProgram (w : World) (file : option Token) (config : Value)
    (extras : list string) : M nat :=
  try_catch (runProgram_body w file config extras) (fun _ => ret 1).

(** ** The main function *)

(** Lines 21-35: a first positional token that is not a command selects
    a configuration; the next unconsumed positional token is then the
    command.  Returns the tokens, [selected] and the command reference. *)
Definition resolve_selector (w : World) (availableConfigs : Value)
    (tokens : list Token) (command : nat) : M (list Token * Value * nat) :=
  if negb (includes availableCommands (value (deref tokens command))) then
    let tokens := consume command tokens in
    selected <- get w availableConfigs (value (deref tokens command)) ;;
    if negb (truthy selected) then
      listConfigurations availableConfigs ;;
      log ("error: configuration " ++ quote ++ value (deref tokens command)
           ++ quote ++ " not found" ++ nl)%string ;;
      exit 1
    else
      match find_index unconsumed_positional tokens with
      | None =>
          printHelp ;;
          log ("error: expected command arument" ++ nl)%string ;;
          exit 1
      | Some command => ret (tokens, selected, command)
      end
  else ret (tokens, VUndefined, command).

(** Lines 37-45: [test] and [run] take the next unconsumed positional
    token as the file. *)
Definition resolve_file (tokens : list Token) (command : nat)
  : M (list Token * option nat) :=
  if includes ["run"; "test"] (value (deref tokens command)) then
    match find_index unconsumed_positional tokens with
    | None => log ("error: expected filename" ++ nl)%string ;; exit 1
    | Some file => ret (consume file tokens, Some file)
    end
  else ret (tokens, None).

(** Line 46. *)
Definition extras_of (tokens : list Token) : list string :=
  map value (filter unconsumed tokens).

(** Line 47. *)
Definition configs_of (selected availableConfigs : Value) : M (list Value) :=
  if truthy selected then ret [selected]
  else lift (object_values availableConfigs).

(** The loop of lines 49-64, with the counter as an argument.  [None]
    is the [return] of the [list] and [help] cases, [Some failures] the
    counter when the loop runs to its end. *)
Fixpoint loop (w : World) (availableConfigs : Value) (command : string)
    (file : option Token) (extras : list string) (configs : list Value)
    (failures : nat) : M (option nat) :=
  match configs with
  | [] => ret (Some failures)
  | config :: rest =>
      if command =? "test" then
        r <- runTest w file config extras ;;
        loop w availableConfigs command file extras rest (failures + r)
      else if command =? "run" then
        r <- runProgram w file config extras ;;
        loop w availableConfigs command file extras rest (failures + r)
      else if command =? "list" then
        listConfigurations availableConfigs ;; ret None
      else if command =? "help" then
        printHelp ;; ret None
      else loop w availableConfigs command file extras rest failures
  end.

(** Lines 48-65: the dispatcher. *)
Definition dispatch (w : World) (availableConfigs : Value) (command : string)
    (file : option Token) (extras : list string) (configs : list Value)
  : M unit :=
  r <- loop w availableConfigs command file extras configs 0 ;;
  match r with
  | None => ret tt
  | Some failures => exit (if Nat.eqb failures 0 then 0 else 1)%Z
  end.

(** Lines 36-65, from the point where the command token is known. *)
Definition run_command (w : World) (availableConfigs : Value)
    (tokens : list Token) (selected : Value) (command : nat) : M unit :=
  let tokens := consume command tokens in
  tf <- resolve_file tokens command ;;
  let tokens := fst tf in
  let file := option_map (deref tokens) (snd tf) in
  let extras := extras_of tokens in
  configs <- configs_of selected availableConfigs ;;
  dispatch w availableConfigs (value (deref tokens command)) file extras configs.

(** The async function of lines 10-66.  [Ret tt] is the function
    returning (the process then ends by itself with status 0), [Exit]
    a call of [process.exit], [Throw] a rejection nobody handles,
    [Uncaught] the death of the process on the [error] event of a child
    that [run] could not start. *)
Definition main (w : World) (argv : list string) : M unit :=
  let tokens := map mk_token argv in
  match find_index positional tokens with
  | None => printHelp ;; exit 0
  | Some command =>
      let availableConfigs := loadConfigurations w in
      r <- resolve_selector w availableConfigs tokens command ;;
      let '(tokens, selected, command) := r in
      run_command w availableConfigs tokens selected command
  end.

(** ** The two steps of an attempt

    The dispatcher's per-configuration work, in the words of its
    description: a build step (stage the scratch directory and compile
    for the configuration's target) followed by a run step (execute the
    binary in the configuration's container).  [Built] is what the build
    step hands to the run step. *)

Record Built : Type := {
  built_zig : Value;
  built_docker : Value;
  built_dir : string;
  built_name : string
}.

Definition build_step (w : World) (command : string) (file : option Token)
    (config : Value) (extras : list string) : M Built :=
  zd <- destructure config ;;
  fv <- file_value file ;;
  za <- prop (fst zd) "arch" ;;
  zp <- prop (fst zd) "platform" ;;
  dir <- join w [VStr (os_tmpdir w); VStr "zdq"; za; zp] ;;
  let name :=
    if command =? "test" then (path_name w fv ++ ".test")%string
    else path_name w fv in
  path <- join w [VStr dir; VStr name] ;;
  makeDir w dir ;;
  target <- pair_text (fst zd) "arch" "-" "platform" ;;
  fv <- file_value file ;;
  run w "zig"
    ((if command =? "test" then [VStr "test"; VStr "--test-no-exec"]
      else [VStr "build-exe"])
     ++ [ VStr "-target"; VStr target;
          VStr ("-femit-bin=" ++ path)%string; VStr fv ]
     ++ map VStr extras) ;;
  ret {| built_zig := fst zd; built_docker := snd zd;
         built_dir := dir; built_name := name |}.

Definition run_step (w : World) (command : string) (b : Built) : M nat :=
  target_dir <- pair_text (built_zig b) "arch" "/" "platform" ;;
  let dirVM := ("/home/zdq/" ++ target_dir)%string in
  environment <- pair_text (built_docker b) "platform" "/" "arch" ;;
  print ((if command =? "test" then "Running test in "
          else "Running executable in ") ++ environment ++ ":" ++ nl)%string ;;
  platform <- pair_text (built_docker b) "platform" "/" "arch" ;;
  image <- prop (built_docker b) "image" ;;
  run w "docker"
    ([ VStr "run"; VStr "--platform"; VStr platform;
       VStr "-v"; VStr (built_dir b ++ ":" ++ dirVM)%string;
       VStr "-w"; VStr dirVM; VStr "--rm"; VStr "-t" ]
     ++ (if command =? "test" then [VStr "-q"] else [])
     ++ [ image; VStr ("./" ++ built_name b)%string ]) ;;
  ret 0.

(** What the loop calls for [test] and for [run]. *)
Definition attempt (w : World) (command : string) (file : option Token)
    (config : Value) (extras : list string) : M nat :=
  if command =? "test" then runTest w file config extras
  else runProgram w file config extras.

(** The step fails: it throws, or a program it launches cannot be
    started. *)
Definition fails {A : Type} (m : M A) (t : Trace) : bool :=
  match m t with
  | (Throw _, _) | (Uncaught _, _) => true
  | _ => false
  end.

(** The build step or the run step of the attempt on [config] fails,
    when the attempt starts after [t]. *)
Definition step_fails (w : World) (command : string) (file : option Token)
    (extras : list string) (config : Value) (t : Trace) : bool :=
  match build_step w command file config extras t with
  | (Ret b, t') => fails (run_step w command b) t'
  | (Throw _, _) | (Uncaught _, _) => true
  | (Exit _, _) => false
  end.

(** The configurations of [configs] whose build step or run step fails,
    the attempts being made one after the other from [t]. *)
Fixpoint failed_configs (w : World) (command : string) (file : option Token)
    (extras : list string) (configs : list Value) (t : Trace) : list Value :=
  match configs with
  | [] => []
  | config :: rest =>
      (if step_fails w command file extras config t then [config] else [])
      ++ failed_configs w command file extras rest
           (snd (attempt w command file config extras t))
  end.

(** ** Notions used in the statements *)

(** *** Computations *)

(** [m] never calls [process.exit]. *)
Definition no_exit {A : Type} (m : M A) : Prop :=
  forall t c t', m t <> (Exit c, t').

(** The process does not die in [m] of an exception nobody can catch. *)
Definition survives {A : Type} (m : M A) : Prop :=
  forall t e t', m t <> (Uncaught e, t').

(** The program [cmd] can be started on this host. *)
Definition can_start (w : World) (cmd : string) : Prop :=
  forall t args, child_close w t cmd args <> ErrorEvent.

(** Every program the script launches can be started on this host. *)
Definition starts_children (w : World) : Prop :=
  forall cmd, can_start w cmd.

(** Every directory the script asks for can be made, or exists. *)
Definition makes_directories (w : World) : Prop :=
  forall t path, fs_mkdir w t path = None \/ fs_mkdir w t path = Some "EEXIST".

(** [m] only appends to the trace, and only events that satisfy [P]. *)
Definition emits {A : Type} (P : Event -> Prop) (m : M A) : Prop :=
  forall t r t', m t = (r, t') -> exists evs, t' = t ++ evs /\ Forall P evs.

(** Whatever [m] returns satisfies [P]. *)
Definition returns {A : Type} (P : A -> Prop) (m : M A) : Prop :=
  forall t a t', m t = (Ret a, t') -> P a.

(** The event is the start of the program [cmd]. *)
Definition is_spawn (cmd : string) (e : Event) : bool :=
  match e with
  | Spawn c _ => c =? cmd
  | _ => false
  end.

(** If the event is a compiler invocation, its arguments end with the
    file and then the extras. *)
Definition compiler_args_end_with (file : string) (extras : list string)
    (e : Event) : Prop :=
  match e with
  | Spawn cmd args =>
      cmd = "zig" -> exists pre, args = pre ++ VStr file :: map VStr extras
  | _ => True
  end.

(** *** Descriptors *)

Definition is_nullish (v : Value) : bool :=
  match v with
  | VUndefined | VNull => true
  | _ => false
  end.

Definition is_string (v : Value) : bool :=
  match v with
  | VStr _ => true
  | _ => false
  end.

(** The descriptor is [null] or [undefined], or has no [zig] sub-record,
    or its [zig] sub-record has no string [arch] or [platform]. *)
Definition lacks_zig (config : Value) : bool :=
  is_nullish config
  || is_nullish (read config "zig")
  || negb (is_string (read (read config "zig") "arch"))
  || negb (is_string (read (read config "zig") "platform")).

(** The descriptor has no [zig] or no [docker] sub-record, or its [zig]
    sub-record has no string [arch] or [platform]. *)
Definition lacks_records (config : Value) : bool :=
  is_nullish config
  || is_nullish (read config "zig")
  || is_nullish (read config "docker")
  || negb (is_string (read (read config "zig") "arch"))
  || negb (is_string (read (read config "zig") "platform")).

(** The descriptor lacks a sub-record or any field of one. *)
Definition lacks_fields (config : Value) : bool :=
  lacks_records config
  || is_nullish (read (read config "docker") "arch")
  || is_nullish (read (read config "docker") "platform")
  || is_nullish (read (read config "docker") "image").

(** Both sub-records are populated: every field the program reads is a
    string. *)
Definition populated (config : Value) : bool :=
  is_string (read (read config "zig") "arch")
  && is_string (read (read config "zig") "platform")
  && is_string (read (read config "docker") "arch")
  && is_string (read (read config "docker") "platform")
  && is_string (read (read config "docker") "image").

Definition text (v : Value) : string :=
  match v with
  | VStr s => s
  | _ => ""
  end.

(** The lines [listConfigurations] prints for a populated entry. *)
Definition listing_of (entry : string * Value) : list Event :=
  let zig := read (snd entry) "zig" in
  let docker := read (snd entry) "docker" in
  [ Stdout (fst entry ++ ":" ++ nl)%string;
    Stdout ("    Zig compile target: "
            ++ (text (read zig "arch") ++ "-" ++ text (read zig "platform"))
            ++ nl)%string;
    Stdout ("    Docker environment: "
            ++ (text (read docker "platform") ++ "/" ++ text (read docker "arch"))
            ++ nl)%string;
    Stdout ("                 image: " ++ text (read docker "image") ++ nl)%string;
    Stdout nl ].

(** *** Positions in the argument list *)

Definition mem (i : nat) (idxs : list nat) : bool := existsb (Nat.eqb i) idxs.

(** The elements of [l] whose position is not in [idxs], in their
    order. *)
Definition drop_positions {A : Type} (idxs : list nat) (l : list A) : list A :=
  map snd (filter (fun p => negb (mem (fst p) idxs))
                  (combine (seq 0 (List.length l)) l)).

(** The position the selector phase consumes: that of the first
    positional token, unless it is a command. *)
Definition selector_positions (argv : list string) (c0 : nat) : list nat :=
  if includes availableCommands (nth c0 argv "") then [] else [c0].

(** The tokens after the positions [idxs] were consumed one by one. *)
Definition consume_all (idxs : list nat) (tokens : list Token) : list Token :=
  fold_left (fun ts i => consume i ts) idxs tokens.

(** The positions of [idxs] that lie in the tail of a list, counted
    from the start of the tail. *)
Fixpoint preds (idxs : list nat) : list nat :=
  match idxs with
  | [] => []
  | 0 :: r => preds r
  | S j :: r => j :: preds r
  end.

Definition mark (t : Token) : Token :=
  {| value := value t; flags := flags t; consumed := true |}.

(** The file token as the dispatcher receives it: positional, and
    consumed. *)
Definition file_token (name : string) : Token :=
  {| value := name; flags := false; consumed := true |}.

(** *** Insertion order *)

(** A map that keeps its keys in the order in which they were first
    inserted: a repeated key keeps its place and takes the new value. *)
Definition insert_ordered (ps : list (string * Value)) (k : string) (v : Value)
  : list (string * Value) :=
  match assoc k ps with
  | Some _ => replace_property ps k v
  | None => ps ++ [(k, v)]
  end.

Definition insertion_order (members : list (string * Value)) : list (string * Value) :=
  fold_left (fun ps m => insert_ordered ps (fst m) (snd m)) members [].

Definition not_index (p : string * Value) : bool := negb (is_array_index (fst p)).

(** The shape of a property table: entries with array-index keys, each
    smaller than every index key after it, and then the entries whose
    key is not an array index. *)
Inductive ordered : list (string * Value) -> Prop :=
| ordered_rest (rest : list (string * Value)) :
    forallb not_index rest = true -> ordered rest
| ordered_index (k : string) (n : N) (v : Value) (ps : list (string * Value)) :
    array_index k = Some n ->
    (forall k' v' n', In (k', v') ps -> array_index k' = Some n' -> (n < n')%N) ->
    ordered ps ->
    ordered ((k, v) :: ps).

(** ** Concrete hosts, for running the model *)

Definition posix_join (parts : list string) : string := String.concat "/" parts.

(** [parse(p).name] for the plain file names used below: the name up to
    its extension. *)
Definition stem (p : string) : string :=
  match index 0 "." p with
  | Some i => substring 0 i p
  | None => p
  end.

(** What a plain object inherits from [Object.prototype]. *)
Definition object_inherited (k : Kind) (name : string) : Value :=
  match assoc name object_prototype with
  | Some v => v
  | None => VUndefined
  end.

(** The text of a document, for documents whose strings need no
    escape and whose numbers are written in their canonical rendering;
    [JSON.parse] reads it back as the document. *)
Fixpoint render (j : Json) : string :=
  match j with
  | JNull => "null"
  | JBool true => "true"
  | JBool false => "false"
  | JNumber r => r
  | JString s => quote ++ s ++ quote
  | JArray l => "[" ++ String.concat "," (map render l) ++ "]"
  | JObject ms =>
      "{" ++ String.concat ","
               (map (fun m => quote ++ fst m ++ quote ++ ":" ++ render (snd m)) ms)
          ++ "}"
  end%string.

(** A host of the given architecture, whose [~/.zdq.json] holds the
    text of [doc] (or is missing), where every directory creation
    succeeds and a child ends with the code [codes] gives for its
    command. *)
Definition host (arch : string) (doc : option Json) (codes : string -> Z) : World :=
  {| os_arch := arch;
     os_tmpdir := "/tmp";
     os_homedir := Some "/home/u";
     path_join := posix_join;
     path_name := stem;
     fs_readFile := fun path =>
       if path =? "/home/u/.zdq.json" then option_map render doc else None;
     JSON_parse := fun text =>
       match doc with
       | Some d => if text =? render d then Some d else None
       | None => None
       end;
     inherited := object_inherited;
     fs_mkdir := fun _ _ => None;
     child_close := fun _ cmd _ => Close (Some (codes cmd)) |}.

Definition all_ok : string -> Z := fun _ => 0%Z.

Definition linux_config (zig_arch docker_arch : string) : Json :=
  JObject [ ("zig", JObject [ ("arch", JString zig_arch);
                              ("platform", JString "linux") ]);
            ("docker", JObject [ ("arch", JString docker_arch);
                                 ("platform", JString "linux");
                                 ("image", JString "ubuntu") ]) ].

(** An [arm64] host without [~/.zdq.json]: the store is the default one,
    with the single key [amd64]. *)
Definition bare_host : World := host "arm64" None all_ok.

(** The default configuration of that host. *)
Definition default_amd64 : Value := getDefaultConfig bare_host.

(** The same host with a compiler that exits with status 1. *)
Definition failing_compiler_host : World :=
  host "arm64" None (fun cmd => if cmd =? "zig" then 1%Z else 0%Z).

(** A host whose [~/.zdq.json] is the empty object. *)
Definition empty_store_host : World := host "arm64" (Some (JObject [])) all_ok.

(** A host whose [~/.zdq.json] names its configurations [b] and [a], in
    that order. *)
Definition named_store : list (string * Json) :=
  [ ("b", linux_config "x86_64" "amd64"); ("a", linux_config "aarch64" "arm64") ].

Definition named_host : World := host "x64" (Some (JObject named_store)) all_ok.

(** A host whose [~/.zdq.json] names its configurations [b] and [1], in
    that order. *)
Definition numbered_store : list (string * Json) :=
  [ ("b", linux_config "x86_64" "amd64"); ("1", linux_config "aarch64" "arm64") ].

Definition numbered_host : World := host "x64" (Some (JObject numbered_store)) all_ok.

(** A descriptor whose [docker] sub-record has no [image]. *)
Definition no_image_config : Value :=
  VObj [ ("zig", VObj [ ("arch", VStr "x86_64"); ("platform", VStr "linux") ]);
         ("docker", VObj [ ("arch", VStr "amd64"); ("platform", VStr "linux") ]) ].

(** A descriptor whose [docker] sub-record has no [arch]. *)
Definition no_arch_config : Value :=
  VObj [ ("zig", VObj [ ("arch", VStr "x86_64"); ("platform", VStr "linux") ]);
         ("docker", VObj [ ("platform", VStr "linux"); ("image", VStr "ubuntu") ]) ].

(** A descriptor without a [docker] sub-record. *)
Definition no_docker_config : Value :=
  VObj [ ("zig", VObj [ ("arch", VStr "x86_64"); ("platform", VStr "linux") ]) ].

(** ** Notions used in the further properties *)

(** An argument that starts with the flag marker. *)
Definition is_flag (a : string) : bool := prefix "-" a.

Definition is_stdout (e : Event) : Prop :=
  match e with
  | Stdout _ => True
  | _ => False
  end.

(** The event is a line the script writes through [log]. *)
Definition is_log_line (e : Event) : Prop :=
  match e with
  | Stderr _ => True
  | _ => False
  end.

Definition not_log_line (e : Event) : Prop :=
  match e with
  | Stderr _ => False
  | _ => True
  end.

(** Whenever [m] ends the process, the status satisfies [P]. *)
Definition exits_with {A : Type} (P : Z -> Prop) (m : M A) : Prop :=
  forall t c t', m t = (Exit c, t') -> P c.

(** [m] only appends to the trace, and if it writes through [log] it
    ends the process with status 1. *)
Definition log_then_exit_1 {A : Type} (m : M A) : Prop :=
  forall t r t', m t = (r, t') ->
    exists evs, t' = t ++ evs /\ (Forall not_log_line evs \/ r = Exit 1%Z).

(** *** What an attempt starts *)

(** The child ended in a way [run] takes for success: it closed with
    code 0, or a signal ended it (code [null]). *)
Definition closes_ok (r : ChildResult) : bool :=
  match r with
  | Close None => true
  | Close (Some code) => (code =? 0)%Z
  | SpawnThrows | ErrorEvent => false
  end.

(** The error [run] rejects with otherwise. *)
Definition close_error (r : ChildResult) : Error :=
  match r with
  | Close (Some code) => ExitCodeError code
  | _ => SpawnError
  end.

(** How a call of [run] ends, by what the child did. *)
Definition child_outcome (r : ChildResult) : Result unit :=
  match r with
  | ErrorEvent => Uncaught SpawnError
  | _ => if closes_ok r then Ret tt else Throw (close_error r)
  end.

Definition zig_arch (config : Value) : string :=
  text (read (read config "zig") "arch").

Definition zig_platform (config : Value) : string :=
  text (read (read config "zig") "platform").

(** [join(os.tmpdir(), 'zdq', zig.arch, zig.platform)] *)
Definition scratch_dir (w : World) (config : Value) : string :=
  path_join w [os_tmpdir w; "zdq"; zig_arch config; zig_platform config].

(** [`${info.name}.test`] for [test], [`${info.name}`] for [run]. *)
Definition binary_name (w : World) (command : string) (file : Token) : string :=
  if command =? "test" then (path_name w (value file) ++ ".test")%string
  else path_name w (value file).

(** The argument list of the compiler, lines 76-84 and 115-122. *)
Definition compiler_args (w : World) (command : string) (file : Token)
    (config : Value) (extras : list string) : list Value :=
  (if command =? "test" then [VStr "test"; VStr "--test-no-exec"]
   else [VStr "build-exe"])
  ++ [ VStr "-target";
       VStr (zig_arch config ++ "-" ++ zig_platform config)%string;
       VStr ("-femit-bin="
             ++ path_join w [scratch_dir w config; binary_name w command file])%string;
       VStr (value file) ]
  ++ map VStr extras.

(** [`/home/zdq/${zig.arch}/${zig.platform}`] *)
Definition container_dir (config : Value) : string :=
  ("/home/zdq/" ++ (zig_arch config ++ "/" ++ zig_platform config))%string.

(** [`${docker.platform}/${docker.arch}`] *)
Definition docker_platform (config : Value) : string :=
  (text (read (read config "docker") "platform") ++ "/"
   ++ text (read (read config "docker") "arch"))%string.

(** The line printed before the container starts, lines 86 and 124. *)
Definition container_line (command : string) (config : Value) : string :=
  ((if command =? "test" then "Running test in " else "Running executable in ")
   ++ docker_platform config ++ ":" ++ nl)%string.

(** The argument list of the container runtime, lines 87-100 and
    125-137. *)
Definition container_args (w : World) (command : string) (file : Token)
    (config : Value) : list Value :=
  [ VStr "run"; VStr "--platform"; VStr (docker_platform config);
    VStr "-v"; VStr (scratch_dir w config ++ ":" ++ container_dir config)%string;
    VStr "-w"; VStr (container_dir config); VStr "--rm"; VStr "-t" ]
  ++ (if command =? "test" then [VStr "-q"] else [])
  ++ [ read (read config "docker") "image";
       VStr ("./" ++ binary_name w command file)%string ].

(** *** Flags and the host *)


(** The event is a line on one of the two output streams. *)
Definition is_output (e : Event) : Prop :=
  match e with
  | Stdout _ | Stderr _ => True
  | _ => False
  end.

(** The event creates a directory or starts a process. *)
Definition touches_host (e : Event) : Prop :=
  match e with
  | Mkdir _ | Spawn _ _ => True
  | _ => False
  end.


(** *** More hosts *)

(** The bare host with a scratch area nobody may write to. *)
Definition readonly_host : World :=
  {| os_arch := os_arch bare_host;
     os_tmpdir := os_tmpdir bare_host;
     os_homedir := os_homedir bare_host;
     path_join := path_join bare_host;
     path_name := path_name bare_host;
     fs_readFile := fs_readFile bare_host;
     JSON_parse := JSON_parse bare_host;
     inherited := inherited bare_host;
     fs_mkdir := fun _ _ => Some "EACCES";
     child_close := child_close bare_host |}.

(** A host whose [~/.zdq.json] holds the text [null]. *)
Definition null_store_host : World := host "arm64" (Some JNull) all_ok.

(** A host whose [~/.zdq.json] has an empty object between two
    configurations. *)
Definition partial_store : list (string * Json) :=
  [ ("a", linux_config "aarch64" "arm64");
    ("b", JObject []);
    ("c", linux_config "x86_64" "amd64") ].

Definition partial_host : World := host "x64" (Some (JObject partial_store)) all_ok.

(** The host [w] without a compiler: [zig] cannot be started there. *)
Definition without_compiler (w : World) : World :=
  {| os_arch := os_arch w;
     os_tmpdir := os_tmpdir w;
     os_homedir := os_homedir w;
     path_join := path_join w;
     path_name := path_name w;
     fs_readFile := fs_readFile w;
     JSON_parse := JSON_parse w;
     inherited := inherited w;
     fs_mkdir := fs_mkdir w;
     child_close := fun t cmd args =>
       if cmd =? "zig" then ErrorEvent else child_close w t cmd args |}.

(** A host whose [~/.zdq.json] has [null] for its first entry. *)
Definition null_entry_store : list (string * Json) :=
  [ ("x", JNull); ("y", linux_config "x86_64" "amd64") ].

Definition null_entry_host : World :=
  host "x64" (Some (JObject null_entry_store)) all_ok.

(** * Properties *)

(** ** The monad *)

Lemma bind_ret {A B : Type} (a : A) (f : A -> M B) (t : Trace) :
  bind (ret a) f t = f a t.
Proof. reflexivity. Qed.

Lemma bind_assoc {A B C : Type} (m : M A) (f : A -> M B) (g : B -> M C) (t : Trace) :
  bind (bind m f) g t = bind m (fun a => bind (f a) g) t.
Proof. unfold bind. destruct (m t) as [[a | e | c | u] t']; reflexivity. Qed.

Lemma bind_ext {A B : Type} (m : M A) (f g : A -> M B) (t : Trace) :
  (forall a t', f a t' = g a t') -> bind m f t = bind m g t.
Proof.
  intros H. unfold bind. destruct (m t) as [[a | e | c | u] t']; auto.
Qed.

Lemma bind_ext_ret {A B : Type} (m : M A) (f g : A -> M B) (t : Trace) :
  (forall a t', m t = (Ret a, t') -> f a t' = g a t') -> bind m f t = bind m g t.
Proof.
  intros H. unfold bind. destruct (m t) as [[a | e | c | u] t']; auto.
Qed.

Ltac monad_simpl :=
  repeat (rewrite bind_assoc || rewrite bind_ret); cbv beta.

Ltac same_steps :=
  repeat (rewrite ?bind_assoc, ?bind_ret;
          first [reflexivity | apply bind_ext; intros]).

Lemma runTest_body_steps w file config extras t :
  runTest_body w file config extras t
  = bind (build_step w "test" file config extras) (run_step w "test") t.
Proof.
  unfold runTest_body, build_step, run_step; cbn [String.eqb Ascii.eqb Bool.eqb].
  same_steps.
Qed.

Lemma runProgram_body_steps w file config extras t :
  runProgram_body w file config extras t
  = bind (build_step w "run" file config extras) (run_step w "run") t.
Proof.
  unfold runProgram_body, build_step, run_step; cbn [String.eqb Ascii.eqb Bool.eqb].
  same_steps.
Qed.

Lemma try_catch_ext {A : Type} (m m' : M A) (h : Error -> M A) (t : Trace) :
  m t = m' t -> try_catch m h t = try_catch m' h t.
Proof. intros H. unfold try_catch. now rewrite H. Qed.

(** *** Computations that never end the process *)

Create HintDb js discriminated.

Lemma no_exit_ret {A : Type} (a : A) : no_exit (ret a).
Proof. unfold no_exit, ret. congruence. Qed.

Lemma no_exit_throw {A : Type} (e : Error) : no_exit (@throw A e).
Proof. unfold no_exit, throw. congruence. Qed.

Lemma no_exit_bind {A B : Type} (m : M A) (f : A -> M B) :
  no_exit m -> (forall a, no_exit (f a)) -> no_exit (bind m f).
Proof.
  intros Hm Hf t c t'. unfold bind.
  destruct (m t) as [[a | e | c0 | u] t0] eqn:E.
  - apply Hf.
  - congruence.
  - now apply Hm in E.
  - congruence.
Qed.

Lemma no_exit_try_catch {A : Type} (m : M A) (h : Error -> M A) :
  no_exit m -> (forall e, no_exit (h e)) -> no_exit (try_catch m h).
Proof.
  intros Hm Hh t c t'. unfold try_catch.
  destruct (m t) as [[a | e | c0 | u] t0] eqn:E.
  - congruence.
  - apply Hh.
  - now apply Hm in E.
  - congruence.
Qed.

Lemma no_exit_emit (e : Event) : no_exit (emit e).
Proof. unfold no_exit, emit. congruence. Qed.

Lemma no_exit_lift {A : Type} (o : option A) : no_exit (lift o).
Proof. destruct o; [apply no_exit_ret | apply no_exit_throw]. Qed.

Lemma no_exit_join w args : no_exit (join w args).
Proof. unfold join. destruct (strings args); [apply no_exit_ret | apply no_exit_throw]. Qed.

Lemma no_exit_mkdir w path : no_exit (mkdir w path).
Proof. unfold no_exit, mkdir. intros t c t'. destruct (fs_mkdir w t path); congruence. Qed.

Lemma no_exit_makeDir w path : no_exit (makeDir w path).
Proof.
  apply no_exit_try_catch; [apply no_exit_mkdir |].
  intros e. destruct (negb (has_code e "EEXIST")); [apply no_exit_throw | apply no_exit_ret].
Qed.

Lemma no_exit_run w cmd args : no_exit (run w cmd args).
Proof.
  unfold no_exit, run. intros t c t'.
  destruct (child_close w t cmd args) as [[code |] | |]; try congruence.
  destruct (code =? 0)%Z; congruence.
Qed.

#[local] Hint Resolve no_exit_ret no_exit_throw no_exit_emit no_exit_lift
  no_exit_join no_exit_mkdir no_exit_makeDir no_exit_run : js.

Ltac no_exit_tac :=
  repeat first
    [ apply no_exit_bind; [| intros ]
    | solve [ auto with js ]
    | unfold pair_text, prop, str, print, log, file_value, destructure ].

Lemma no_exit_build_step w command file config extras :
  no_exit (build_step w command file config extras).
Proof. unfold build_step. no_exit_tac. Qed.

Lemma no_exit_run_step w command b : no_exit (run_step w command b).
Proof. unfold run_step. no_exit_tac. Qed.

(** *** What a computation adds to the trace *)

Lemma emits_nothing {A : Type} (P : Event -> Prop) (r : Result A) :
  emits P (fun t => (r, t)).
Proof.
  intros t r' t' [= <- <-]. exists []. split; [now rewrite app_nil_r | constructor].
Qed.

Lemma emits_ret {A : Type} P (a : A) : emits P (ret a).
Proof. apply emits_nothing. Qed.

Lemma emits_throw {A : Type} P (e : Error) : emits P (@throw A e).
Proof. apply emits_nothing. Qed.

Lemma emits_exit {A : Type} P (c : Z) : emits P (@exit A c).
Proof. apply emits_nothing. Qed.

Lemma emits_lift {A : Type} P (o : option A) : emits P (lift o).
Proof. destruct o; apply emits_nothing. Qed.

Lemma emits_join P w args : emits P (join w args).
Proof. unfold join. destruct (strings args); apply emits_nothing. Qed.

Lemma emits_one {A : Type} (P : Event -> Prop) (m : M A) (e : Event) :
  P e -> (forall t, snd (m t) = t ++ [e]) -> emits P m.
Proof.
  intros He Hm t r t' E. exists [e]. split; [| now repeat constructor].
  specialize (Hm t). now rewrite E in Hm.
Qed.

Lemma emits_emit (P : Event -> Prop) (e : Event) : P e -> emits P (emit e).
Proof. intros He. now apply emits_one with (e := e). Qed.

Lemma emits_bind {A B : Type} P (m : M A) (f : A -> M B) :
  emits P m -> (forall a, emits P (f a)) -> emits P (bind m f).
Proof.
  intros Hm Hf t r t'. unfold bind.
  destruct (m t) as [[a | e | c | u] t0] eqn:E; intros H;
    destruct (Hm _ _ _ E) as (evs & -> & Hevs).
  - destruct (Hf a _ _ _ H) as (evs' & -> & Hevs').
    exists (evs ++ evs'). split; [now rewrite app_assoc | now apply Forall_app].
  - injection H as <- <-. eauto.
  - injection H as <- <-. eauto.
  - injection H as <- <-. eauto.
Qed.

Lemma emits_try_catch {A : Type} P (m : M A) (h : Error -> M A) :
  emits P m -> (forall e, emits P (h e)) -> emits P (try_catch m h).
Proof.
  intros Hm Hh t r t'. unfold try_catch.
  destruct (m t) as [[a | e | c | u] t0] eqn:E; intros H;
    destruct (Hm _ _ _ E) as (evs & -> & Hevs).
  - injection H as <- <-. eauto.
  - destruct (Hh e _ _ _ H) as (evs' & -> & Hevs').
    exists (evs ++ evs'). split; [now rewrite app_assoc | now apply Forall_app].
  - injection H as <- <-. eauto.
  - injection H as <- <-. eauto.
Qed.

Lemma emits_makeDir (P : Event -> Prop) w path :
  P (Mkdir path) -> emits P (makeDir w path).
Proof.
  intros HP. apply emits_try_catch.
  - apply emits_one with (e := Mkdir path); [assumption |].
    intros t. unfold mkdir. now destruct (fs_mkdir w t path).
  - intros e. destruct (negb (has_code e "EEXIST")); apply emits_nothing.
Qed.

Lemma emits_run (P : Event -> Prop) w cmd args :
  P (Spawn cmd args) -> emits P (run w cmd args).
Proof.
  intros HP. apply emits_one with (e := Spawn cmd args); [assumption |].
  intros t. unfold run.
  destruct (child_close w t cmd args) as [[code |] | |]; try reflexivity.
  now destruct (code =? 0)%Z.
Qed.

Ltac emits_tac :=
  repeat first
    [ apply emits_bind; [| intros ]
    | apply emits_ret | apply emits_throw | apply emits_exit
    | apply emits_lift | apply emits_join
    | apply emits_makeDir | apply emits_run | apply emits_emit
    | reflexivity
    | unfold pair_text, prop, str, print, log, file_value, destructure ].

(** *** Values a computation returns *)

Lemma returns_ret {A : Type} (P : A -> Prop) (a : A) : P a -> returns P (ret a).
Proof. intros Ha t a' t' [= <- _]. exact Ha. Qed.

Lemma returns_bind {A B : Type} (P : B -> Prop) (m : M A) (f : A -> M B) :
  (forall a, returns P (f a)) -> returns P (bind m f).
Proof.
  intros Hf t b t'. unfold bind.
  destruct (m t) as [[a | e | c | u] t0]; try discriminate. apply Hf.
Qed.

Lemma run_step_returns_zero w command b : returns (eq 0) (run_step w command b).
Proof.
  unfold run_step. repeat (apply returns_bind; intros). now apply returns_ret.
Qed.

(** ** The attempt on one configuration *)

Lemma build_step_emits w command file config extras :
  emits (fun e => is_spawn "docker" e = false)
        (build_step w command file config extras).
Proof. unfold build_step. emits_tac. Qed.

Lemma attempt_steps w command file config extras t :
  command = "test" \/ command = "run" ->
  attempt w command file config extras t
  = try_catch (bind (build_step w command file config extras) (run_step w command))
              (fun _ => ret 1) t.
Proof.
  intros [-> | ->]; unfold attempt; cbn [String.eqb Ascii.eqb Bool.eqb];
    apply try_catch_ext;
    [apply runTest_body_steps | apply runProgram_body_steps].
Qed.

(** *** Computations the process survives *)

Lemma survives_ret {A : Type} (a : A) : survives (ret a).
Proof. unfold survives, ret. congruence. Qed.

Lemma survives_throw {A : Type} (e : Error) : survives (@throw A e).
Proof. unfold survives, throw. congruence. Qed.

Lemma survives_exit {A : Type} (c : Z) : survives (@exit A c).
Proof. unfold survives, exit. congruence. Qed.

Lemma survives_emit (e : Event) : survives (emit e).
Proof. unfold survives, emit. congruence. Qed.

Lemma survives_lift {A : Type} (o : option A) : survives (lift o).
Proof. destruct o; [apply survives_ret | apply survives_throw]. Qed.

Lemma survives_join w args : survives (join w args).
Proof.
  unfold join. destruct (strings args); [apply survives_ret | apply survives_throw].
Qed.

Lemma survives_bind {A B : Type} (m : M A) (f : A -> M B) :
  survives m -> (forall a, survives (f a)) -> survives (bind m f).
Proof.
  intros Hm Hf t x t'. unfold bind.
  destruct (m t) as [[a | e | c | u] t0] eqn:E.
  - apply Hf.
  - congruence.
  - congruence.
  - now apply Hm in E.
Qed.

Lemma survives_try_catch {A : Type} (m : M A) (h : Error -> M A) :
  survives m -> (forall e, survives (h e)) -> survives (try_catch m h).
Proof.
  intros Hm Hh t x t'. unfold try_catch.
  destruct (m t) as [[a | e | c | u] t0] eqn:E.
  - congruence.
  - apply Hh.
  - congruence.
  - now apply Hm in E.
Qed.

Lemma survives_makeDir w path : survives (makeDir w path).
Proof.
  apply survives_try_catch.
  - unfold survives, mkdir. intros t e t'. destruct (fs_mkdir w t path); congruence.
  - intros e. destruct (negb (has_code e "EEXIST"));
      [apply survives_throw | apply survives_ret].
Qed.

(** The one way to die: a child that cannot be started. *)
Lemma survives_run w cmd args : can_start w cmd -> survives (run w cmd args).
Proof.
  intros Hw t e t'. unfold run. specialize (Hw t args).
  destruct (child_close w t cmd args) as [[code |] | |]; try congruence.
  destruct (code =? 0)%Z; congruence.
Qed.

#[local] Hint Resolve survives_ret survives_throw survives_exit survives_emit
  survives_lift survives_join survives_makeDir survives_run : js.

Ltac survives_tac :=
  repeat first
    [ solve [ auto with js ]
    | apply survives_bind; [| intros ]
    | apply survives_try_catch; [| intros ]
    | progress cbv zeta
    | unfold pair_text, prop, str, print, log, file_value, destructure ].

Lemma survives_build_step w command file config extras :
  can_start w "zig" -> survives (build_step w command file config extras).
Proof. intros Hw. unfold build_step. survives_tac. Qed.

Lemma survives_run_step w command b :
  can_start w "docker" -> survives (run_step w command b).
Proof. intros Hw. unfold run_step. survives_tac. Qed.

(** On a host where every child can be started an attempt returns, with
    1 when one of its steps fails and with 0 otherwise. *)
Lemma attempt_result w command file config extras t :
  starts_children w ->
  command = "test" \/ command = "run" ->
  attempt w command file config extras t
  = (Ret (if step_fails w command file extras config t then 1 else 0),
     snd (attempt w command file config extras t)).
Proof.
  intros Hw H. rewrite (attempt_steps _ _ _ _ _ _ H).
  unfold step_fails, fails, try_catch, bind.
  destruct (build_step w command file config extras t) as [[b | e | c | u] t1] eqn:Eb.
  - destruct (run_step w command b t1) as [[n | e | c | u] t2] eqn:Er.
    + now rewrite <- (run_step_returns_zero _ _ _ _ _ _ Er).
    + reflexivity.
    + now apply no_exit_run_step in Er.
    + now apply (survives_run_step _ _ _ (Hw "docker")) in Er.
  - reflexivity.
  - now apply no_exit_build_step in Eb.
  - now apply (survives_build_step _ _ _ _ _ (Hw "zig")) in Eb.
Qed.

Lemma loop_cons w store command file extras config rest n t :
  command = "test" \/ command = "run" ->
  loop w store command file extras (config :: rest) n t
  = bind (attempt w command file config extras)
         (fun r => loop w store command file extras rest (n + r)) t.
Proof. intros [-> | ->]; reflexivity. Qed.

Lemma loop_counts w store command file extras :
  starts_children w ->
  command = "test" \/ command = "run" ->
  forall configs n t, exists t',
    loop w store command file extras configs n t
    = (Ret (Some (n + length (failed_configs w command file extras configs t))), t').
Proof.
  intros Hw H configs. induction configs as [| config rest IH]; intros n t.
  - exists t. cbn. now rewrite Nat.add_0_r.
  - rewrite (loop_cons _ _ _ _ _ _ _ _ _ H). unfold bind.
    rewrite (attempt_result _ _ _ _ _ _ Hw H).
    cbn [failed_configs].
    set (t1 := snd (attempt w command file config extras t)).
    destruct (IH (n + (if step_fails w command file extras config t then 1 else 0)) t1)
      as (t' & ->).
    exists t'. rewrite length_app.
    destruct (step_fails w command file extras config t); cbn [length];
      match goal with
      | |- (Ret (Some ?a), _) = (Ret (Some ?b), _) => replace a with b by lia
      end; reflexivity.
Qed.

(** What holds of the count on a host where every child can be started:
    for the commands [test] and [run], the counter the loop ends with is
    the number of configurations for which the build step or the run
    step fails, and the dispatcher ends the process with status 0 when
    that number is 0 and with status 1 otherwise. *)
Lemma failures_are_counted w store command file extras configs t :
  starts_children w ->
  command = "test" \/ command = "run" ->
  exists t',
    loop w store command file extras configs 0 t
    = (Ret (Some (length (failed_configs w command file extras configs t))), t')
    /\ dispatch w store command file extras configs t
       = (Exit (if Nat.eqb (length (failed_configs w command file extras configs t)) 0
                then 0 else 1)%Z, t').
Proof.
  intros Hw H.
  destruct (loop_counts w store command file extras Hw H configs 0 t) as (t' & E).
  exists t'. split; [exact E |].
  unfold dispatch, bind. now rewrite E.
Qed.

(** What holds of a compile step that throws (a non-zero exit of the
    compiler, a rejected [mkdir], a [TypeError] while staging): the
    attempt adds no container invocation to the trace and returns 1, and
    the loop goes on with the remaining configurations, its counter one
    higher. *)
Lemma thrown_compile_failure_short_circuits
    w store command file extras config rest n t e t1 :
  command = "test" \/ command = "run" ->
  build_step w command file config extras t = (Throw e, t1) ->
  (exists evs, t1 = t ++ evs /\ Forall (fun ev => is_spawn "docker" ev = false) evs)
  /\ attempt w command file config extras t = (Ret 1, t1)
  /\ loop w store command file extras (config :: rest) n t
     = loop w store command file extras rest (n + 1) t1.
Proof.
  intros H Eb.
  assert (Ea : attempt w command file config extras t = (Ret 1, t1)).
  { rewrite (attempt_steps _ _ _ _ _ _ H). unfold try_catch, bind. now rewrite Eb. }
  split; [exact (build_step_emits _ _ _ _ _ _ _ _ Eb) |].
  split; [exact Ea |].
  rewrite (loop_cons _ _ _ _ _ _ _ _ _ H). unfold bind. now rewrite Ea.
Qed.

(** ** Tokens *)

Lemma find_index_bound {A : Type} (p : A -> bool) (l : list A) (i : nat) :
  find_index p l = Some i -> i < List.length l.
Proof.
  revert i. induction l as [| x r IH]; intros i; cbn; [discriminate |].
  destruct (p x).
  - intros [= <-]. lia.
  - destruct (find_index p r) as [j |]; cbn; [| discriminate].
    intros [= <-]. specialize (IH j eq_refl). lia.
Qed.

Lemma find_index_holds {A : Type} (p : A -> bool) (l : list A) (i : nat) (d : A) :
  find_index p l = Some i -> p (nth i l d) = true.
Proof.
  revert i. induction l as [| x r IH]; intros i; cbn; [discriminate |].
  destruct (p x) eqn:E.
  - now intros [= <-].
  - destruct (find_index p r) as [j |]; cbn; [| discriminate].
    intros [= <-]. now apply IH.
Qed.

Lemma value_consume (tokens : list Token) (i j : nat) :
  value (deref (consume i tokens) j) = value (deref tokens j).
Proof.
  unfold deref. revert i j.
  induction tokens as [| t r IH]; intros i j; [reflexivity |].
  destruct i, j; cbn; auto.
Qed.

Lemma flags_consume (tokens : list Token) (i j : nat) :
  flags (deref (consume i tokens) j) = flags (deref tokens j).
Proof.
  unfold deref. revert i j.
  induction tokens as [| t r IH]; intros i j; [reflexivity |].
  destruct i, j; cbn; auto.
Qed.

Lemma consumed_consume (tokens : list Token) (i : nat) :
  i < List.length tokens -> consumed (deref (consume i tokens) i) = true.
Proof.
  unfold deref. revert i.
  induction tokens as [| t r IH]; intros i; cbn; [lia |].
  destruct i; cbn; [reflexivity |]. intros H. apply IH. lia.
Qed.

Lemma value_mk_token (argv : list string) (i : nat) :
  value (deref (map mk_token argv) i) = nth i argv "".
Proof.
  unfold deref. revert i.
  induction argv as [| a r IH]; intros [| i]; cbn; auto.
Qed.

(** ** Resolving the selector *)

Lemma returns_exit {A : Type} (P : A -> Prop) (c : Z) : returns P (@exit A c).
Proof. intros t a t'. unfold exit. discriminate. Qed.

Lemma get_result w obj key t r t' :
  get w obj key t = (r, t') -> t' = t /\ forall t0, get w obj key t0 = (r, t0).
Proof.
  unfold get.
  destruct obj; try (intros [= <- <-]; now split);
    destruct (own_property _ key); intros [= <- <-]; now split.
Qed.

(** When the selector phase returns, it has printed nothing, and either
    the first positional token is a command and nothing was looked up or
    consumed, or it names a truthy property of the store and the command
    is the next unconsumed positional token. *)
Lemma resolve_selector_returns w store tokens c t tokens' selected command t' :
  resolve_selector w store tokens c t = (Ret (tokens', selected, command), t') ->
  t' = t
  /\ ((includes availableCommands (value (deref tokens c)) = true
       /\ tokens' = tokens /\ selected = VUndefined /\ command = c)
      \/ (includes availableCommands (value (deref tokens c)) = false
          /\ tokens' = consume c tokens
          /\ get w store (value (deref tokens c)) t = (Ret selected, t)
          /\ truthy selected = true
          /\ find_index unconsumed_positional (consume c tokens) = Some command)).
Proof.
  unfold resolve_selector.
  destruct (includes availableCommands (value (deref tokens c))) eqn:Ec; cbn [negb].
  - intros [= <- <- <- <-]. split; [reflexivity |]. left. now repeat split.
  - rewrite value_consume. unfold bind at 1.
    destruct (get w store (value (deref tokens c)) t) as [[v | e | x | u] t1] eqn:Eg;
      try discriminate.
    destruct (get_result _ _ _ _ _ _ Eg) as [-> _].
    destruct (truthy v) eqn:Ev; cbn [negb].
    + destruct (find_index unconsumed_positional (consume c tokens)) as [c' |] eqn:Ef.
      * intros [= <- <- <- <-]. split; [reflexivity |]. right. now repeat split.
      * intros H. exfalso. revert H.
        apply (returns_bind (fun _ => False)). intros _.
        apply returns_bind. intros _. apply returns_exit.
    + intros H. exfalso. revert H.
      apply (returns_bind (fun _ => False)). intros _.
      apply returns_bind. intros _. apply returns_exit.
Qed.

Lemma main_after_selector w argv c0 tokens selected command t t' :
  find_index positional (map mk_token argv) = Some c0 ->
  resolve_selector w (loadConfigurations w) (map mk_token argv) c0 t
  = (Ret (tokens, selected, command), t') ->
  main w argv t = run_command w (loadConfigurations w) tokens selected command t.
Proof.
  intros Hc Hr. unfold main. rewrite Hc. unfold bind at 1. rewrite Hr.
  destruct (resolve_selector_returns _ _ _ _ _ _ _ _ _ Hr) as [-> _].
  reflexivity.
Qed.

(** C5. When the resolved command is [test] or [run] and no unconsumed
    positional token is left for the file, the program writes
    [error: expected filename] to the error stream and exits with
    status 1; it prints no help text and starts no process (the trace
    gains that one event only). *)
Theorem missing_file_is_a_usage_error w argv c0 tokens selected command t t' :
  find_index positional (map mk_token argv) = Some c0 ->
  resolve_selector w (loadConfigurations w) (map mk_token argv) c0 t
  = (Ret (tokens, selected, command), t') ->
  value (deref tokens command) = "test" \/ value (deref tokens command) = "run" ->
  find_index unconsumed_positional (consume command tokens) = None ->
  main w argv t = (Exit 1, t ++ [Stderr ("error: expected filename" ++ nl)%string]).
Proof.
  intros Hc Hr Hv Hf.
  rewrite (main_after_selector _ _ _ _ _ _ _ _ Hc Hr).
  unfold run_command, resolve_file. rewrite value_consume, Hf.
  destruct Hv as [-> | ->]; reflexivity.
Qed.

(** ** The configuration store *)

Lemma read_store_fails w :
  read_store w = None <->
  (os_homedir w = None
   \/ exists home, os_homedir w = Some home
      /\ (fs_readFile w (path_join w [home; ".zdq.json"]) = None
          \/ exists json, fs_readFile w (path_join w [home; ".zdq.json"]) = Some json
                          /\ JSON_parse w json = None)).
Proof.
  unfold read_store. destruct (os_homedir w) as [home |].
  - destruct (fs_readFile w (path_join w [home; ".zdq.json"])) as [json |] eqn:Er.
    + destruct (JSON_parse w json) eqn:Ep; cbn.
      * split; [discriminate |].
        intros [H | (h & [= <-] & [H | (json' & H1 & H2)])]; congruence.
      * split; [| reflexivity]. intros _. right. exists home. split; [reflexivity |].
        right. now exists json.
    + split; [| reflexivity]. intros _. right. exists home. now repeat split; left.
  - split; [| reflexivity]. intros _. now left.
Qed.


(** ** Descriptors the store does not validate *)

Lemma field_read (v : Value) (k : string) :
  is_nullish v = false -> field v k = Some (read v k).
Proof. unfold read. destruct v; cbn; intros H; try discriminate; reflexivity. Qed.

Lemma field_nullish (v : Value) (k : string) :
  is_nullish v = true -> field v k = None.
Proof. destruct v; cbn; intros H; try discriminate; reflexivity. Qed.

Lemma build_step_returns_docker w command file config extras :
  returns (fun b => built_docker b = read config "docker")
          (build_step w command file config extras).
Proof.
  unfold build_step, destructure, prop.
  destruct (is_nullish config) eqn:Ec.
  - rewrite (field_nullish _ _ Ec). intros t a t'. discriminate.
  - rewrite !(field_read _ _ Ec). cbn [lift].
    intros t a t'. monad_simpl. cbn [fst snd]. revert t a t'.
    repeat (apply returns_bind; intros). now apply returns_ret.
Qed.

Lemma build_step_needs_zig w command file config extras t :
  lacks_zig config = true ->
  build_step w command file config extras t = (Throw TypeError, t).
Proof.
  unfold lacks_zig. intros H. unfold build_step, destructure, prop.
  destruct (is_nullish config) eqn:Ec.
  { now rewrite (field_nullish _ _ Ec). }
  rewrite !(field_read _ _ Ec). cbn [lift]. monad_simpl. cbn [fst snd].
  destruct file as [f |]; [| reflexivity].
  cbn [file_value option_map lift]. monad_simpl.
  destruct (is_nullish (read config "zig")) eqn:Ez.
  { now rewrite (field_nullish _ _ Ez). }
  rewrite !(field_read _ _ Ez). cbn [lift]. monad_simpl.
  cbn [orb] in H.
  assert (Hs : strings [VStr (os_tmpdir w); VStr "zdq"; read (read config "zig") "arch";
                        read (read config "zig") "platform"] = None).
  { cbn. destruct (read (read config "zig") "arch"); try reflexivity.
    destruct (read (read config "zig") "platform"); try reflexivity.
    discriminate. }
  unfold join at 1. now rewrite Hs.
Qed.

Lemma no_exit_pair_text obj a sep b : no_exit (pair_text obj a sep b).
Proof. unfold pair_text. no_exit_tac. Qed.

Lemma pair_text_is_pure obj a sep b t r t' :
  pair_text obj a sep b t = (r, t') ->
  t' = t /\ ((exists x, r = Ret x) \/ r = Throw TypeError).
Proof.
  unfold pair_text, prop, str.
  destruct (field obj a) as [x |]; cbn [lift]; [| intros [= <- <-]; auto].
  rewrite bind_ret.
  destruct (to_string x) as [sx |]; cbn [lift]; [| intros [= <- <-]; auto].
  rewrite bind_ret.
  destruct (field obj b) as [y |]; cbn [lift]; [| intros [= <- <-]; auto].
  rewrite bind_ret.
  destruct (to_string y) as [sy |]; cbn [lift]; [| intros [= <- <-]; auto].
  rewrite bind_ret. intros [= <- <-]. eauto.
Qed.

(** Without a [docker] sub-record the run step throws on its first read
    of it, before anything is printed or started. *)
Lemma run_step_needs_docker w command b t :
  is_nullish (built_docker b) = true ->
  run_step w command b t = (Throw TypeError, t).
Proof.
  intros Hd. unfold run_step. unfold bind at 1.
  destruct (pair_text (built_zig b) "arch" "/" "platform" t) as [r t1] eqn:E.
  destruct (pair_text_is_pure _ _ _ _ _ _ _ E) as (-> & [(x & ->) | ->]);
    [| reflexivity].
  unfold pair_text at 1, prop. now rewrite (field_nullish _ _ Hd).
Qed.

(** C10, amended. The store is used as parsed, and the loop calls
    [runTest] or [runProgram] on whatever it finds there.  On a
    descriptor that is [null], or has no [zig] sub-record, or no string
    [arch] or [platform] in it, the call throws inside its [try] block
    before a directory is made or a program started, returns 1, and the
    loop goes on with the next configuration, its counter one higher.
    On a descriptor that has those and lacks the [docker] sub-record the
    same happens after the compile step, when the compiler can be
    started: the attempt starts no container, returns 1, and the loop
    goes on with its counter one higher. *)
Theorem unvalidated_descriptor_counts_one_failure
    w store command file extras config rest n t :
  command = "test" \/ command = "run" ->
  (lacks_zig config = true ->
   attempt w command file config extras t = (Ret 1, t)
   /\ loop w store command file extras (config :: rest) n t
      = loop w store command file extras rest (n + 1) t)
  /\ (is_nullish (read config "docker") = true ->
      can_start w "zig" ->
      exists evs,
        Forall (fun ev => is_spawn "docker" ev = false) evs
        /\ attempt w command file config extras t = (Ret 1, t ++ evs)
        /\ loop w store command file extras (config :: rest) n t
           = loop w store command file extras rest (n + 1) (t ++ evs)).
Proof.
  intros Hc.
  assert (Hloop : forall t1,
             attempt w command file config extras t = (Ret 1, t1) ->
             loop w store command file extras (config :: rest) n t
             = loop w store command file extras rest (n + 1) t1).
  { intros t1 Ea. rewrite (loop_cons _ _ _ _ _ _ _ _ _ Hc). unfold bind.
    now rewrite Ea. }
  split.
  - intros Hl.
    assert (Ea : attempt w command file config extras t = (Ret 1, t)).
    { rewrite (attempt_steps _ _ _ _ _ _ Hc). unfold try_catch, bind.
      now rewrite (build_step_needs_zig _ _ _ _ _ _ Hl). }
    split; [exact Ea | now apply Hloop].
  - intros Hd Hz.
    destruct (build_step w command file config extras t) as [[b | e | c | u] t1] eqn:Eb.
    + destruct (build_step_emits _ _ _ _ _ _ _ _ Eb) as (evs & -> & Hevs).
      pose proof (build_step_returns_docker _ _ _ _ _ _ _ _ Eb) as Hb.
      rewrite <- Hb in Hd.
      assert (Ea : attempt w command file config extras t = (Ret 1, t ++ evs)).
      { rewrite (attempt_steps _ _ _ _ _ _ Hc). unfold try_catch, bind.
        now rewrite Eb, (run_step_needs_docker _ _ _ _ Hd). }
      exists evs. split; [exact Hevs |]. split; [exact Ea | now apply Hloop].
    + destruct (build_step_emits _ _ _ _ _ _ _ _ Eb) as (evs & -> & Hevs).
      assert (Ea : attempt w command file config extras t = (Ret 1, t ++ evs)).
      { rewrite (attempt_steps _ _ _ _ _ _ Hc). unfold try_catch, bind.
        now rewrite Eb. }
      exists evs. split; [exact Hevs |]. split; [exact Ea | now apply Hloop].
    + now apply no_exit_build_step in Eb.
    + now apply (survives_build_step _ _ _ _ _ Hz) in Eb.
Qed.

(** ** Extras *)

Lemma mem_preds (idxs : list nat) (j : nat) : mem j (preds idxs) = mem (S j) idxs.
Proof.
  induction idxs as [| [| i] r IH]; cbn; [reflexivity | exact IH |].
  unfold mem in IH. now rewrite IH.
Qed.

Lemma consume_all_cons (idxs : list nat) (t : Token) (r : list Token) :
  consume_all idxs (t :: r)
  = (if mem 0 idxs then mark t else t) :: consume_all (preds idxs) r.
Proof.
  revert t r. induction idxs as [| [| i] l IH]; intros t r; cbn.
  - reflexivity.
  - change (consume_all l (mark t :: r) = mark t :: consume_all (preds l) r).
    rewrite IH. now destruct (mem 0 l).
  - apply IH.
Qed.

Lemma extras_consume_all (tokens : list Token) :
  forall (k : nat) (idxs idxs' : list nat),
    (forall j, mem j idxs' = mem (k + j) idxs) ->
    Forall (fun t => consumed t = false) tokens ->
    extras_of (consume_all idxs' tokens)
    = map snd (filter (fun p => negb (mem (fst p) idxs))
                      (combine (seq k (List.length tokens)) (map value tokens))).
Proof.
  induction tokens as [| t r IH]; intros k idxs idxs' Hm Hu.
  - unfold consume_all, extras_of.
    assert (E : forall l, fold_left (fun ts i => consume i ts) l [] = []).
    { induction l; cbn; auto. }
    now rewrite E.
  - rewrite consume_all_cons. inversion Hu as [| ? ? Ht Hr]; subst.
    cbn [List.length seq map combine filter fst].
    specialize (IH (S k) idxs (preds idxs')).
    assert (Hp : forall j, mem j (preds idxs') = mem (S k + j) idxs).
    { intros j. rewrite mem_preds, Hm. f_equal. lia. }
    specialize (IH Hp Hr).
    rewrite (Hm 0), Nat.add_0_r. unfold extras_of in *.
    destruct (mem k idxs); cbn [filter unconsumed mark consumed negb map snd].
    + exact IH.
    + unfold unconsumed at 1. rewrite Ht. cbn [negb map]. now rewrite IH.
Qed.

(** The extras of a token list in which exactly the positions [idxs]
    were consumed are the arguments at the other positions. *)
Lemma extras_drop_positions (argv : list string) (idxs : list nat) :
  extras_of (consume_all idxs (map mk_token argv)) = drop_positions idxs argv.
Proof.
  unfold drop_positions.
  rewrite (extras_consume_all (map mk_token argv) 0 idxs idxs).
  - rewrite length_map, map_map. cbn [value mk_token]. now rewrite map_id.
  - reflexivity.
  - apply Forall_forall. intros t Ht. apply in_map_iff in Ht.
    now destruct Ht as (a & <- & _).
Qed.

Lemma emits_bind_ret {A B : Type} P (a : A) (f : A -> M B) :
  emits P (f a) -> emits P (bind (ret a) f).
Proof. intros H t r t'. exact (H t r t'). Qed.

Lemma emits_ext {A : Type} P (m m' : M A) :
  (forall t, m t = m' t) -> emits P m' -> emits P m.
Proof. intros E H t r t'. rewrite E. apply H. Qed.

Lemma build_step_passes_extras w command file config extras :
  emits (compiler_args_end_with (value file) extras)
        (build_step w command (Some file) config extras).
Proof.
  unfold build_step. cbn [file_value option_map lift].
  repeat first
    [ apply emits_bind_ret
    | apply emits_bind; [solve [emits_tac] | intros] ].
  apply emits_bind; [| intros; apply emits_ret].
  apply emits_run. intros _.
  match goal with
  | |- exists pre, ?sub ++ [?a; ?b; ?c; ?f] ++ ?e = _ => exists (sub ++ [a; b; c])
  end.
  rewrite <- app_assoc. reflexivity.
Qed.

Lemma pair_text_strings obj a sep b x y t :
  field obj a = Some (VStr x) ->
  field obj b = Some (VStr y) ->
  pair_text obj a sep b t = (Ret (x ++ sep ++ y)%string, t).
Proof.
  intros Ha Hb. unfold pair_text, prop, str. now rewrite Ha, Hb.
Qed.

Lemma run_step_spawns_no_compiler w command b file extras :
  emits (compiler_args_end_with file extras) (run_step w command b).
Proof.
  unfold run_step.
  repeat (apply emits_bind; [solve [emits_tac] | intros]).
  apply emits_bind; [| intros; apply emits_ret].
  apply emits_run. discriminate.
Qed.

Lemma attempt_passes_extras w command file config extras :
  command = "test" \/ command = "run" ->
  emits (compiler_args_end_with (value file) extras)
        (attempt w command (Some file) config extras).
Proof.
  intros H. eapply emits_ext; [intros t; apply (attempt_steps _ _ _ _ _ _ H) |].
  apply emits_try_catch; [| intros; apply emits_ret].
  apply emits_bind; [apply build_step_passes_extras |].
  intros b. apply run_step_spawns_no_compiler.
Qed.

Lemma consume_all_app (l1 l2 : list nat) (tokens : list Token) :
  consume_all (l1 ++ l2) tokens = consume_all l2 (consume_all l1 tokens).
Proof. unfold consume_all. apply fold_left_app. Qed.

Lemma token_eta (t : Token) :
  t = {| value := value t; flags := flags t; consumed := consumed t |}.
Proof. now destruct t. Qed.

Lemma value_consume_all (idxs : list nat) (tokens : list Token) (i : nat) :
  value (deref (consume_all idxs tokens) i) = value (deref tokens i).
Proof.
  revert tokens. induction idxs as [| p l IH]; intros tokens; [reflexivity |].
  change (consume_all (p :: l) tokens) with (consume_all l (consume p tokens)).
  now rewrite IH, value_consume.
Qed.

(** ** Bare commands *)

(** *** The order of the own properties of a parsed object *)

Lemma array_index_inj (k k' : string) (n : N) :
  array_index k = Some n -> array_index k' = Some n -> k = k'.
Proof.
  unfold array_index. intros H H'.
  destruct (NilEmpty.uint_of_string k) as [d |]; [| discriminate].
  destruct (NilEmpty.uint_of_string k') as [d' |]; [| discriminate].
  destruct ((NilZero.string_of_uint (N.to_uint (N.of_uint d)) =? k)
            && (N.of_uint d <? 4294967295)%N) eqn:E; [| discriminate].
  destruct ((NilZero.string_of_uint (N.to_uint (N.of_uint d')) =? k')
            && (N.of_uint d' <? 4294967295)%N) eqn:E'; [| discriminate].
  apply andb_prop in E, E'. destruct E as [E _], E' as [E' _].
  apply String.eqb_eq in E, E'. injection H as H. injection H' as H'.
  congruence.
Qed.

Lemma in_replace_property ps k v k' v' :
  In (k', v') (replace_property ps k v) -> exists v'', In (k', v'') ps.
Proof.
  induction ps as [| [k0 v0] r IH]; cbn; [tauto |].
  destruct (k0 =? k) eqn:E.
  - intros [[= <- <-] | H]; eauto.
  - intros [[= <- <-] | H]; [eauto |]. destruct (IH H) as (v'' & Hv). eauto.
Qed.

Lemma in_insert_index ps n k v x :
  In x (insert_index ps n k v) -> x = (k, v) \/ In x ps.
Proof.
  induction ps as [| [k0 v0] r IH]; cbn.
  - intros [<- | []]. now left.
  - destruct (array_index k0) as [n0 |].
    + destruct (n0 <? n)%N.
      * intros [<- | H]; [right; now left |]. destruct (IH H); auto.
      * intros [<- | H]; auto.
    + intros [<- | H]; auto.
Qed.

Lemma not_index_replace ps k v :
  forallb not_index (replace_property ps k v) = forallb not_index ps.
Proof.
  induction ps as [| [k0 v0] r IH]; [reflexivity |].
  cbn [replace_property]. destruct (k0 =? k); cbn [forallb]; [reflexivity |].
  now rewrite IH.
Qed.

Lemma ordered_replace ps k v : ordered ps -> ordered (replace_property ps k v).
Proof.
  induction 1 as [rest Hr | k0 n0 v0 ps Hk Hlt Ho IH].
  - apply ordered_rest. now rewrite not_index_replace.
  - cbn. destruct (k0 =? k).
    + now apply ordered_index with (n := n0).
    + apply ordered_index with (n := n0); [assumption | | assumption].
      intros k' v' n' Hin. destruct (in_replace_property _ _ _ _ _ Hin) as (v'' & Hv).
      eauto.
Qed.

Lemma ordered_append ps k v :
  ordered ps -> array_index k = None -> ordered (ps ++ [(k, v)]).
Proof.
  intros Ho Hk. induction Ho as [rest Hr | k0 n0 v0 ps Hk0 Hlt Ho IH].
  - apply ordered_rest. rewrite forallb_app, Hr. cbn.
    unfold not_index, is_array_index. cbn. now rewrite Hk.
  - cbn. apply ordered_index with (n := n0); [assumption | | assumption].
    intros k' v' n' Hin Hn'. apply in_app_or in Hin.
    destruct Hin as [Hin | [[= <- <-] | []]]; [eauto | congruence].
Qed.

Lemma ordered_insert_index ps n k v :
  ordered ps -> assoc k ps = None -> array_index k = Some n ->
  ordered (insert_index ps n k v).
Proof.
  intros Ho. induction Ho as [rest Hr | k0 n0 v0 ps Hk0 Hlt Ho IH]; intros Ha Hk.
  - destruct rest as [| [k0 v0] r]; cbn.
    + apply ordered_index with (n := n); [assumption | intros ? ? ? [] |].
      now apply ordered_rest.
    + pose proof Hr as Hr'. cbn in Hr. apply andb_prop in Hr. destruct Hr as [H0 _].
      unfold not_index, is_array_index in H0. cbn in H0.
      destruct (array_index k0) eqn:E0; [discriminate |].
      apply ordered_index with (n := n); [assumption | | now apply ordered_rest].
      intros k' v' n' Hin Hn'. exfalso.
      rewrite forallb_forall in Hr'. specialize (Hr' _ Hin).
      unfold not_index, is_array_index in Hr'. cbn in Hr'. now rewrite Hn' in Hr'.
  - cbn in Ha. destruct (k0 =? k) eqn:Ek; [discriminate |].
    cbn. rewrite Hk0. destruct (n0 <? n)%N eqn:El.
    + apply ordered_index with (n := n0); [assumption | | now apply IH].
      intros k' v' n' Hin Hn'. apply in_insert_index in Hin.
      destruct Hin as [[= -> ->] | Hin]; [| eauto].
      rewrite Hk in Hn'. injection Hn' as <-. now apply N.ltb_lt.
    + assert (Hlt0 : (n < n0)%N).
      { apply N.ltb_ge in El. apply String.eqb_neq in Ek.
        destruct (N.eq_dec n n0) as [-> | Hne]; [| lia].
        exfalso. apply Ek. eapply array_index_inj; eauto. }
      apply ordered_index with (n := n); [assumption | |].
      * intros k' v' n' [[= <- <-] | Hin] Hn'.
        -- rewrite Hk0 in Hn'. now injection Hn' as <-.
        -- specialize (Hlt _ _ _ Hin Hn'). lia.
      * now apply ordered_index with (n := n0).
Qed.

Lemma ordered_create_data_property ps k v :
  ordered ps -> ordered (create_data_property ps k v).
Proof.
  intros Ho. unfold create_data_property.
  destruct (assoc k ps) eqn:Ea; [now apply ordered_replace |].
  destruct (array_index k) eqn:Ek.
  - now apply ordered_insert_index.
  - now apply ordered_append.
Qed.

(** What [JSON.parse] builds lists its array-index keys first, in
    ascending order. *)
Lemma build_object_ordered (members : list (string * Value)) :
  ordered (build_object members).
Proof.
  unfold build_object.
  assert (H : ordered []) by now apply ordered_rest.
  revert H. generalize (@nil (string * Value)) as acc.
  induction members as [| [k v] r IH]; intros acc H; cbn; [assumption |].
  apply IH. now apply ordered_create_data_property.
Qed.

Lemma assoc_replace ps k v k' :
  assoc k ps <> None ->
  assoc k' (replace_property ps k v) = if k =? k' then Some v else assoc k' ps.
Proof.
  induction ps as [| [k0 v0] r IH]; cbn; [congruence |].
  destruct (k0 =? k) eqn:E0.
  - intros _. apply String.eqb_eq in E0. subst k0. cbn.
    now destruct (k =? k').
  - intros H. cbn. destruct (k0 =? k') eqn:E1.
    + apply String.eqb_eq in E1. subst k'. rewrite String.eqb_sym in E0.
      now rewrite E0.
    + now apply IH.
Qed.

Lemma assoc_insert_index ps n k v k' :
  assoc k ps = None ->
  assoc k' (insert_index ps n k v) = if k =? k' then Some v else assoc k' ps.
Proof.
  induction ps as [| [k0 v0] r IH]; cbn.
  - now destruct (k =? k').
  - destruct (k0 =? k) eqn:E0; [discriminate |]. intros Hr.
    destruct (array_index k0) as [n0 |]; [destruct (n0 <? n)%N |]; cbn;
      try reflexivity.
    rewrite (IH Hr). destruct (k0 =? k') eqn:E1; [| reflexivity].
    destruct (k =? k') eqn:E2; [| reflexivity].
    apply String.eqb_eq in E1, E2. subst. now rewrite String.eqb_refl in E0.
Qed.

Lemma assoc_app_one (ps : list (string * Value)) (k : string) (v : Value) k' :
  assoc k' (ps ++ [(k, v)])
  = match assoc k' ps with
    | Some x => Some x
    | None => if k =? k' then Some v else None
    end.
Proof.
  induction ps as [| [k0 v0] r IH]; cbn; [reflexivity |].
  now destruct (k0 =? k').
Qed.

Lemma assoc_create_data_property ps k v k' :
  assoc k' (create_data_property ps k v) = if k =? k' then Some v else assoc k' ps.
Proof.
  unfold create_data_property. destruct (assoc k ps) eqn:Ea.
  - apply assoc_replace. congruence.
  - destruct (array_index k); [now apply assoc_insert_index |].
    rewrite assoc_app_one. destruct (k =? k') eqn:E; [| now destruct (assoc k' ps)].
    apply String.eqb_eq in E. subst. now rewrite Ea.
Qed.

Lemma assoc_insert_ordered ps k v k' :
  assoc k' (insert_ordered ps k v) = if k =? k' then Some v else assoc k' ps.
Proof.
  unfold insert_ordered. destruct (assoc k ps) eqn:Ea.
  - apply assoc_replace. congruence.
  - rewrite assoc_app_one. destruct (k =? k') eqn:E; [| now destruct (assoc k' ps)].
    apply String.eqb_eq in E. subst. now rewrite Ea.
Qed.

(** The parsed object holds the same value under every name as the
    insertion-ordered map of the members. *)
Lemma build_object_same_map (members : list (string * Value)) (k : string) :
  assoc k (build_object members) = assoc k (insertion_order members).
Proof.
  unfold build_object, insertion_order.
  assert (H : assoc k (@nil (string * Value)) = assoc k (@nil (string * Value)))
    by reflexivity.
  revert H. generalize (@nil (string * Value)) at 1 3 as ps.
  generalize (@nil (string * Value)) as qs.
  induction members as [| [k0 v0] r IH]; intros qs ps H; cbn; [assumption |].
  apply IH. now rewrite assoc_create_data_property, assoc_insert_ordered, H.
Qed.

Lemma not_index_key (k : string) (v : Value) :
  not_index (k, v) = negb (is_array_index k).
Proof. reflexivity. Qed.

Lemma filter_replace_index ps k v :
  is_array_index k = true ->
  filter not_index (replace_property ps k v) = filter not_index ps.
Proof.
  intros Hk. induction ps as [| [k0 v0] r IH]; [reflexivity |].
  cbn [replace_property]. destruct (k0 =? k) eqn:E; cbn [filter].
  - apply String.eqb_eq in E. subst k0. now rewrite !not_index_key, Hk.
  - now rewrite IH.
Qed.

Lemma filter_replace_other ps k v :
  is_array_index k = false ->
  filter not_index (replace_property ps k v)
  = replace_property (filter not_index ps) k v.
Proof.
  intros Hk. induction ps as [| [k0 v0] r IH]; [reflexivity |].
  cbn [replace_property]. destruct (k0 =? k) eqn:E; cbn [filter].
  - pose proof E as E'. apply String.eqb_eq in E'. subst k0.
    rewrite !not_index_key, Hk. cbn [negb replace_property].
    now rewrite E.
  - destruct (not_index (k0, v0)); cbn [replace_property]; rewrite ?E, IH; reflexivity.
Qed.

Lemma filter_insert_index ps n k v :
  array_index k = Some n ->
  filter not_index (insert_index ps n k v) = filter not_index ps.
Proof.
  intros Hk.
  assert (Hn : not_index (k, v) = false)
    by (rewrite not_index_key; unfold is_array_index; now rewrite Hk).
  induction ps as [| [k0 v0] r IH]; cbn [insert_index filter].
  - now rewrite Hn.
  - destruct (array_index k0) as [n0 |] eqn:E0; [destruct (n0 <? n)%N |];
      cbn [filter]; rewrite ?Hn, ?IH; reflexivity.
Qed.

Lemma assoc_filter_other ps k :
  is_array_index k = false -> assoc k (filter not_index ps) = assoc k ps.
Proof.
  intros Hk. induction ps as [| [k0 v0] r IH]; [reflexivity |].
  cbn [filter assoc]. destruct (not_index (k0, v0)) eqn:E0; cbn [assoc].
  - now rewrite IH.
  - destruct (k0 =? k) eqn:E; [| exact IH].
    apply String.eqb_eq in E. subst k0.
    rewrite not_index_key, Hk in E0. discriminate.
Qed.

Lemma filter_create_data_property ps k v :
  filter not_index (create_data_property ps k v)
  = if is_array_index k then filter not_index ps
    else insert_ordered (filter not_index ps) k v.
Proof.
  unfold create_data_property, insert_ordered.
  destruct (is_array_index k) eqn:Hk.
  - destruct (assoc k ps); [now apply filter_replace_index |].
    unfold is_array_index in Hk. destruct (array_index k) eqn:Ek; [| discriminate].
    now apply filter_insert_index.
  - rewrite (assoc_filter_other _ _ Hk).
    destruct (assoc k ps); [now apply filter_replace_other |].
    unfold is_array_index in Hk. destruct (array_index k) eqn:Ek; [discriminate |].
    rewrite filter_app. cbn [filter]. rewrite not_index_key.
    unfold is_array_index. now rewrite Ek.
Qed.

Lemma filter_insert_ordered ps k v :
  filter not_index (insert_ordered ps k v)
  = if is_array_index k then filter not_index ps
    else insert_ordered (filter not_index ps) k v.
Proof.
  unfold insert_ordered at 1.
  destruct (is_array_index k) eqn:Hk.
  - destruct (assoc k ps); [now apply filter_replace_index |].
    rewrite filter_app. cbn [filter]. rewrite not_index_key, Hk.
    cbn [negb]. apply app_nil_r.
  - unfold insert_ordered. rewrite (assoc_filter_other _ _ Hk).
    destruct (assoc k ps); [now apply filter_replace_other |].
    rewrite filter_app. cbn [filter]. now rewrite not_index_key, Hk.
Qed.

(** The names that are not array indices keep their insertion order. *)
Lemma build_object_other_names (members : list (string * Value)) :
  filter not_index (build_object members)
  = filter not_index (insertion_order members).
Proof.
  unfold build_object, insertion_order.
  assert (H : filter not_index (@nil (string * Value)) = filter not_index []) by reflexivity.
  revert H. generalize (@nil (string * Value)) at 1 3 as ps.
  generalize (@nil (string * Value)) as qs.
  induction members as [| [k0 v0] r IH]; intros qs ps H; cbn [fold_left]; [assumption |].
  apply IH. cbn [fst snd].
  now rewrite filter_create_data_property, filter_insert_ordered, H.
Qed.

(** The order in which [Object.values] lists a parsed object: the
    array-index names first, ascending, then the other names in their
    insertion order; under each name, the value last given to it. *)
Theorem parsed_object_order (members : list (string * Value)) :
  ordered (build_object members)
  /\ filter not_index (build_object members)
     = filter not_index (insertion_order members)
  /\ forall k, assoc k (build_object members) = assoc k (insertion_order members).
Proof.
  split; [apply build_object_ordered |].
  split; [apply build_object_other_names |].
  intros k. apply build_object_same_map.
Qed.

Lemma build_object_insertion_order (members : list (string * Value)) :
  forallb (fun m => negb (is_array_index (fst m))) members = true ->
  build_object members = insertion_order members.
Proof.
  unfold build_object, insertion_order. generalize (@nil (string * Value)) as acc.
  induction members as [| [k v] r IH]; intros acc H; [reflexivity |].
  cbn in H. apply andb_prop in H. destruct H as [Hk Hr].
  cbn [fold_left fst snd].
  replace (create_data_property acc k v) with (insert_ordered acc k v); [now apply IH |].
  unfold create_data_property, insert_ordered, is_array_index in *.
  destruct (assoc k acc); [reflexivity |].
  now destruct (array_index k).
Qed.

Lemma resolve_file_values tokens c t ts f t' :
  resolve_file tokens c t = (Ret (ts, f), t') ->
  forall i, value (deref ts i) = value (deref tokens i).
Proof.
  unfold resolve_file.
  destruct (includes ["run"; "test"] (value (deref tokens c))).
  - destruct (find_index unconsumed_positional tokens) as [file |].
    + intros [= <- <- <-] i. apply value_consume.
    + intros H. exfalso. revert H.
      apply (returns_bind (fun _ => False)). intros _. apply returns_exit.
  - now intros [= <- <- <-] i.
Qed.

Lemma resolve_selector_command w store tokens c t :
  includes availableCommands (value (deref tokens c)) = true ->
  resolve_selector w store tokens c t = (Ret (tokens, VUndefined, c), t).
Proof. intros H. unfold resolve_selector. now rewrite H. Qed.

(** C6, amended. When the first positional token is a command name, the
    selector phase returns the same for every store (it looks nothing up
    and selects nothing), and the dispatcher gets all configurations of
    the store, in the order [Object.values] lists them; for a store whose
    names are not array indices that is the order of insertion. *)
Theorem bare_command_uses_all_configurations w argv c0 members t :
  find_index positional (map mk_token argv) = Some c0 ->
  includes availableCommands (nth c0 argv "") = true ->
  loadConfigurations w = VObj (build_object members) ->
  (forall store,
      resolve_selector w store (map mk_token argv) c0 t
      = (Ret (map mk_token argv, VUndefined, c0), t))
  /\ main w argv t
     = bind (resolve_file (consume c0 (map mk_token argv)) c0)
            (fun tf =>
               dispatch w (loadConfigurations w) (nth c0 argv "")
                        (option_map (deref (fst tf)) (snd tf))
                        (extras_of (fst tf))
                        (map snd (build_object members))) t
  /\ (forallb (fun m => negb (is_array_index (fst m))) members = true ->
      build_object members = insertion_order members).
Proof.
  intros Hc Hi Hs.
  assert (Hsel : forall store,
             resolve_selector w store (map mk_token argv) c0 t
             = (Ret (map mk_token argv, VUndefined, c0), t)).
  { intros store. apply resolve_selector_command. now rewrite value_mk_token. }
  split; [exact Hsel |].
  split; [| apply build_object_insertion_order].
  rewrite (main_after_selector _ _ _ _ _ _ _ _ Hc (Hsel _)).
  unfold run_command. apply bind_ext_ret. intros [ts f] t1 Hf.
  unfold configs_of. cbn [truthy]. rewrite Hs at 1.
  cbn [object_values object_entries option_map lift]. rewrite bind_ret.
  cbn [fst snd].
  now rewrite (resolve_file_values _ _ _ _ _ _ Hf), value_consume, value_mk_token.
Qed.

(** ** Usage errors *)

(** A first positional token that is not a command and whose lookup in
    the store gives a falsy value: when the listing renders, the program
    prints it, reports the name and exits with status 1. *)
Lemma unknown_selector_is_reported w argv c0 v t t1 :
  find_index positional (map mk_token argv) = Some c0 ->
  includes availableCommands (nth c0 argv "") = false ->
  get w (loadConfigurations w) (nth c0 argv "") t = (Ret v, t) ->
  truthy v = false ->
  listConfigurations (loadConfigurations w) t = (Ret tt, t1) ->
  main w argv t
  = (Exit 1, t1 ++ [Stderr ("error: configuration " ++ quote ++ nth c0 argv ""
                            ++ quote ++ " not found" ++ nl)%string]).
Proof.
  intros Hc Hi Hg Hv Hl. unfold main. rewrite Hc. unfold bind at 1.
  unfold resolve_selector. rewrite !value_consume, value_mk_token, Hi. cbn [negb].
  unfold bind at 1. rewrite Hg, Hv. cbn [negb].
  unfold bind at 1. rewrite Hl. reflexivity.
Qed.

Lemma is_string_text (v : Value) : is_string v = true -> v = VStr (text v).
Proof. destruct v; cbn; intros H; try discriminate; reflexivity. Qed.

Lemma read_string_field (v : Value) (k : string) :
  is_string (read v k) = true -> field v k = Some (VStr (text (read v k))).
Proof.
  intros H. unfold read in *. destruct (field v k) as [x |]; [| discriminate].
  now rewrite <- (is_string_text _ H).
Qed.

Lemma string_field_parent (v : Value) (k : string) :
  is_string (read v k) = true -> is_nullish v = false.
Proof. unfold read. destruct v; cbn; intros H; try discriminate; reflexivity. Qed.

Lemma to_string_text (s : string) : to_string (VStr s) = Some s.
Proof. reflexivity. Qed.

Lemma read_parent (v : Value) (k : string) :
  is_nullish (read v k) = false -> is_nullish v = false.
Proof. unfold read. destruct v; cbn; intros H; try discriminate; reflexivity. Qed.

Lemma bind_emit {B : Type} (e : Event) (f : unit -> M B) (t : Trace) :
  bind (emit e) f t = f tt (t ++ [e]).
Proof. reflexivity. Qed.

Lemma bind_pair_text {B : Type} obj a sep b x y (f : string -> M B) (t : Trace) :
  field obj a = Some (VStr x) ->
  field obj b = Some (VStr y) ->
  bind (pair_text obj a sep b) f t = f (x ++ sep ++ y)%string t.
Proof.
  intros Ha Hb. unfold bind at 1. now rewrite (pair_text_strings _ _ sep _ _ _ t Ha Hb).
Qed.

Lemma list_entry_populated name descriptor t :
  populated descriptor = true ->
  list_entry name descriptor t = (Ret tt, t ++ listing_of (name, descriptor)).
Proof.
  unfold populated. intros H.
  repeat (apply andb_prop in H; destruct H as [H ?]).
  pose proof (string_field_parent _ _ H) as Hz.
  pose proof (read_parent _ _ Hz) as Hd.
  unfold list_entry, destructure, prop, print.
  rewrite !(field_read _ _ Hd).
  cbn [lift]. monad_simpl. cbn [fst snd].
  rewrite bind_emit.
  rewrite (bind_pair_text _ _ _ _ _ _ _ _ (read_string_field _ _ H)
             (read_string_field _ _ H3)).
  rewrite bind_emit.
  rewrite (bind_pair_text _ _ _ _ _ _ _ _ (read_string_field _ _ H1)
             (read_string_field _ _ H2)).
  rewrite bind_emit.
  rewrite (read_string_field _ _ H0). cbn [lift]. monad_simpl.
  unfold str. rewrite to_string_text. cbn [lift]. monad_simpl.
  rewrite bind_emit. unfold emit. cbn [listing_of fst snd].
  now rewrite <- !app_assoc.
Qed.

(** The listing of a store whose entries are all populated. *)
Lemma listConfigurations_populated ps t :
  forallb (fun p => populated (snd p)) ps = true ->
  listConfigurations (VObj ps) t = (Ret tt, t ++ flat_map listing_of ps).
Proof.
  unfold listConfigurations. cbn [object_entries lift]. rewrite bind_ret.
  revert t. induction ps as [| [name d] r IH]; intros t H.
  - cbn. now rewrite app_nil_r.
  - cbn [forallb snd] in H. apply andb_prop in H. destruct H as [Hd Hr].
    cbn [list_entries flat_map]. unfold bind.
    rewrite (list_entry_populated _ _ _ Hd), (IH _ Hr). now rewrite app_assoc.
Qed.

(** C3 without the inherited names: with a store of populated entries,
    a first positional token that is no command, no key of the store
    and no name the store inherits gets the listing, the error message
    and exit status 1, and nothing else. *)
Lemma unknown_selector_in_populated_store w argv c0 ps t :
  find_index positional (map mk_token argv) = Some c0 ->
  includes availableCommands (nth c0 argv "") = false ->
  loadConfigurations w = VObj ps ->
  forallb (fun p => populated (snd p)) ps = true ->
  assoc (nth c0 argv "") ps = None ->
  truthy (inherited w KObject (nth c0 argv "")) = false ->
  main w argv t
  = (Exit 1, (t ++ flat_map listing_of ps)
             ++ [Stderr ("error: configuration " ++ quote ++ nth c0 argv ""
                         ++ quote ++ " not found" ++ nl)%string]).
Proof.
  intros Hc Hi Hs Hp Ha Hv.
  apply (unknown_selector_is_reported w argv c0
           (inherited w KObject (nth c0 argv "")) t); auto.
  - rewrite Hs. unfold get. cbn [own_property kind_of]. now rewrite Ha.
  - rewrite Hs. now apply listConfigurations_populated.
Qed.

(** A selector that is found but followed by no positional token: the
    program prints the help text, then the message of line 32 (which
    reads [arument]), and exits with status 1. *)
Lemma selector_without_command w argv c0 v t :
  find_index positional (map mk_token argv) = Some c0 ->
  includes availableCommands (nth c0 argv "") = false ->
  get w (loadConfigurations w) (nth c0 argv "") t = (Ret v, t) ->
  truthy v = true ->
  find_index unconsumed_positional (consume c0 (map mk_token argv)) = None ->
  main w argv t
  = (Exit 1, (t ++ map Stdout help_text)
             ++ [Stderr ("error: expected command arument" ++ nl)%string]).
Proof.
  intros Hc Hi Hg Hv Hf. unfold main. rewrite Hc. unfold bind at 1.
  unfold resolve_selector. rewrite !value_consume, value_mk_token, Hi. cbn [negb].
  unfold bind at 1. rewrite Hg, Hv, Hf. reflexivity.
Qed.

(** ** [list] and [help] *)

(** With at least one configuration, [help] prints the help text once
    and returns; no [process.exit], no child process. *)
Lemma help_with_configurations w store file extras config rest t :
  dispatch w store "help" file extras (config :: rest) t
  = (Ret tt, t ++ map Stdout help_text).
Proof. reflexivity. Qed.

(** With at least one configuration, [list] renders the store once. *)
Lemma list_with_configurations w store file extras config rest t :
  dispatch w store "list" file extras (config :: rest) t
  = bind (listConfigurations store) (fun _ => ret tt) t.
Proof.
  unfold dispatch. cbn [loop String.eqb Ascii.eqb Bool.eqb].
  rewrite bind_assoc. apply bind_ext. reflexivity.
Qed.

(** With no configuration the loop body never runs: nothing is
    rendered, whatever the command. *)
Lemma nothing_without_configurations w store command file extras t :
  dispatch w store command file extras [] t = (Exit 0, t).
Proof. reflexivity. Qed.

Lemma list_entry_emits name descriptor :
  emits (fun e => is_spawn "zig" e = false /\ is_spawn "docker" e = false)
        (list_entry name descriptor).
Proof. unfold list_entry. emits_tac; now split. Qed.

(** The listing starts no process. *)
Lemma listConfigurations_emits store :
  emits (fun e => is_spawn "zig" e = false /\ is_spawn "docker" e = false)
        (listConfigurations store).
Proof.
  unfold listConfigurations. apply emits_bind; [apply emits_lift |].
  intros entries. induction entries as [| [name descriptor] rest IH]; cbn [list_entries].
  - apply emits_ret.
  - apply emits_bind; [apply list_entry_emits | intros; exact IH].
Qed.

(** ** The scenarios of the specification *)

Example scenario_no_arguments :
  main bare_host [] [] = (Exit 0, map Stdout help_text).
Proof. reflexivity. Qed.

Example scenario_unknown_configuration :
  main bare_host ["badconfig"; "run"; "file.src"] []
  = (Exit 1,
     [ Stdout ("amd64:" ++ nl)%string;
       Stdout ("    Zig compile target: x86_64-linux" ++ nl)%string;
       Stdout ("    Docker environment: linux/amd64" ++ nl)%string;
       Stdout ("                 image: ubuntu" ++ nl)%string;
       Stdout nl;
       Stderr ("error: configuration " ++ quote ++ "badconfig" ++ quote
               ++ " not found" ++ nl)%string ]).
Proof. vm_compute. reflexivity. Qed.

Example scenario_test_without_file :
  main bare_host ["test"] []
  = (Exit 1, [Stderr ("error: expected filename" ++ nl)%string]).
Proof. vm_compute. reflexivity. Qed.

Example scenario_release_build :
  main bare_host ["run"; "a.src"; "--release"] []
  = (Exit 0,
     [ Mkdir "/tmp/zdq/x86_64/linux";
       Spawn "zig" [ VStr "build-exe"; VStr "-target"; VStr "x86_64-linux";
                     VStr "-femit-bin=/tmp/zdq/x86_64/linux/a";
                     VStr "a.src"; VStr "--release" ];
       Stdout ("Running executable in linux/amd64:" ++ nl)%string;
       Spawn "docker" [ VStr "run"; VStr "--platform"; VStr "linux/amd64";
                        VStr "-v"; VStr "/tmp/zdq/x86_64/linux:/home/zdq/x86_64/linux";
                        VStr "-w"; VStr "/home/zdq/x86_64/linux";
                        VStr "--rm"; VStr "-t"; VStr "ubuntu"; VStr "./a" ] ]).
Proof. vm_compute. reflexivity. Qed.

Example scenario_compile_failure :
  main failing_compiler_host ["run"; "a.src"] []
  = (Exit 1,
     [ Mkdir "/tmp/zdq/x86_64/linux";
       Spawn "zig" [ VStr "build-exe"; VStr "-target"; VStr "x86_64-linux";
                     VStr "-femit-bin=/tmp/zdq/x86_64/linux/a"; VStr "a.src" ] ]).
Proof. vm_compute. reflexivity. Qed.

(** ** Where the program departs from its description *)

(** C1. On a host where the compiler cannot be started, [zdq test a.zig]
    has one configuration whose build step fails, and counts nothing:
    the [error] event of the child has no listener, the process dies at
    the first [spawn], the loop returns no counter and the dispatcher
    never reaches [process.exit]. *)
Theorem unstartable_compiler_is_not_counted :
  failed_configs (without_compiler bare_host) "test" (Some (file_token "a.zig")) []
                 [default_amd64] []
  = [default_amd64]
  /\ loop (without_compiler bare_host) (loadConfigurations bare_host) "test"
          (Some (file_token "a.zig")) [] [default_amd64] 0 []
     = (Uncaught SpawnError,
        [ Mkdir "/tmp/zdq/x86_64/linux";
          Spawn "zig" [ VStr "test"; VStr "--test-no-exec";
                        VStr "-target"; VStr "x86_64-linux";
                        VStr "-femit-bin=/tmp/zdq/x86_64/linux/a.test";
                        VStr "a.zig" ] ])
  /\ main (without_compiler bare_host) ["test"; "a.zig"] []
     = (Uncaught SpawnError,
        [ Mkdir "/tmp/zdq/x86_64/linux";
          Spawn "zig" [ VStr "test"; VStr "--test-no-exec";
                        VStr "-target"; VStr "x86_64-linux";
                        VStr "-femit-bin=/tmp/zdq/x86_64/linux/a.test";
                        VStr "a.zig" ] ]).
Proof. vm_compute. repeat split. Qed.

(** C2. On a host where the compiler cannot be started and whose store
    has the configurations [b] and [a], [zdq run a.src] fails to compile
    for [b]; the attempt does not return 1, and the loop does not go on
    to [a]: the process dies with the compiler start for [b] as the last
    thing it did. *)
Theorem unstartable_compiler_ends_the_loop :
  loadConfigurations (without_compiler named_host)
  = VObj [ ("b", reify (linux_config "x86_64" "amd64"));
           ("a", reify (linux_config "aarch64" "arm64")) ]
  /\ attempt (without_compiler named_host) "run" (Some (file_token "a.src"))
             (reify (linux_config "x86_64" "amd64")) [] []
     = (Uncaught SpawnError,
        [ Mkdir "/tmp/zdq/x86_64/linux";
          Spawn "zig" [ VStr "build-exe"; VStr "-target"; VStr "x86_64-linux";
                        VStr "-femit-bin=/tmp/zdq/x86_64/linux/a"; VStr "a.src" ] ])
  /\ main (without_compiler named_host) ["run"; "a.src"] []
     = (Uncaught SpawnError,
        [ Mkdir "/tmp/zdq/x86_64/linux";
          Spawn "zig" [ VStr "build-exe"; VStr "-target"; VStr "x86_64-linux";
                        VStr "-femit-bin=/tmp/zdq/x86_64/linux/a"; VStr "a.src" ] ]).
Proof. vm_compute. repeat split. Qed.

(** C3. [toString] is not a key of the default store, yet
    [availableConfigs["toString"]] finds the function every object
    inherits: the program takes it as the selected configuration, prints
    neither listing nor error, resolves the command [test] and counts
    the attempt on the function as a failure. *)
Theorem inherited_name_is_taken_for_a_configuration :
  own_property (loadConfigurations bare_host) "toString" = None
  /\ includes availableCommands "toString" = false
  /\ resolve_selector bare_host (loadConfigurations bare_host)
       (map mk_token ["toString"; "test"; "a.zig"]) 0 []
     = (Ret (consume 0 (map mk_token ["toString"; "test"; "a.zig"]),
             VFun "toString", 1), [])
  /\ main bare_host ["toString"; "test"; "a.zig"] [] = (Exit 1, []).
Proof. vm_compute. repeat split. Qed.

(** C4. With the selector [amd64] and nothing after it, the message on
    the error stream is [error: expected command arument]: the word
    [argument] is misspelt on line 32. *)
Theorem missing_command_message_is_misspelt :
  main bare_host ["amd64"] []
  = (Exit 1, map Stdout help_text
             ++ [Stderr ("error: expected command arument" ++ nl)%string])
  /\ ("error: expected command arument" ++ nl)%string
     <> ("error: expected command argument" ++ nl)%string.
Proof. split; [vm_compute; reflexivity | vm_compute; discriminate]. Qed.

(** C8. With an empty store, [help] prints nothing: the rendering sits
    inside the loop over the configurations, which has no iteration, and
    the program goes straight to [process.exit(0)]. *)
Theorem help_prints_nothing_for_an_empty_store :
  loadConfigurations empty_store_host = VObj []
  /\ main empty_store_host ["help"] [] = (Exit 0, [])
  /\ main bare_host ["help"] [] = (Ret tt, map Stdout help_text).
Proof. vm_compute. repeat split. Qed.

(** ** Counterexamples to the claims as first stated *)

(** C6 as stated: all configurations in insertion order. With a store
    written as [{ "b": .., "1": .. }], [run] compiles for the
    configuration named [1] first. *)
Lemma array_index_names_come_first :
  ~ (forall w argv c0 members t,
        find_index positional (map mk_token argv) = Some c0 ->
        includes availableCommands (nth c0 argv "") = true ->
        loadConfigurations w = VObj (build_object members) ->
        main w argv t
        = bind (resolve_file (consume c0 (map mk_token argv)) c0)
               (fun tf =>
                  dispatch w (loadConfigurations w) (nth c0 argv "")
                           (option_map (deref (fst tf)) (snd tf))
                           (extras_of (fst tf))
                           (map snd (insertion_order members))) t).
Proof.
  intros H.
  specialize (H numbered_host ["run"; "a.zig"] 0
                (map (fun m => (fst m, reify (snd m))) numbered_store) []
                eq_refl eq_refl eq_refl).
  vm_compute in H. discriminate H.
Qed.

Example numbered_store_order :
  loadConfigurations numbered_host
  = VObj [ ("1", reify (linux_config "aarch64" "arm64"));
           ("b", reify (linux_config "x86_64" "amd64")) ]
  /\ insertion_order (map (fun m => (fst m, reify (snd m))) numbered_store)
     = [ ("b", reify (linux_config "x86_64" "amd64"));
         ("1", reify (linux_config "aarch64" "arm64")) ]
  /\ main numbered_host ["run"; "a.zig"] []
     = (Exit 0,
        [ Mkdir "/tmp/zdq/aarch64/linux";
          Spawn "zig" [ VStr "build-exe"; VStr "-target"; VStr "aarch64-linux";
                        VStr "-femit-bin=/tmp/zdq/aarch64/linux/a"; VStr "a.zig" ];
          Stdout ("Running executable in linux/arm64:" ++ nl)%string;
          Spawn "docker" [ VStr "run"; VStr "--platform"; VStr "linux/arm64";
                           VStr "-v";
                           VStr "/tmp/zdq/aarch64/linux:/home/zdq/aarch64/linux";
                           VStr "-w"; VStr "/home/zdq/aarch64/linux";
                           VStr "--rm"; VStr "-t"; VStr "ubuntu"; VStr "./a" ];
          Mkdir "/tmp/zdq/x86_64/linux";
          Spawn "zig" [ VStr "build-exe"; VStr "-target"; VStr "x86_64-linux";
                        VStr "-femit-bin=/tmp/zdq/x86_64/linux/a"; VStr "a.zig" ];
          Stdout ("Running executable in linux/amd64:" ++ nl)%string;
          Spawn "docker" [ VStr "run"; VStr "--platform"; VStr "linux/amd64";
                           VStr "-v";
                           VStr "/tmp/zdq/x86_64/linux:/home/zdq/x86_64/linux";
                           VStr "-w"; VStr "/home/zdq/x86_64/linux";
                           VStr "--rm"; VStr "-t"; VStr "ubuntu"; VStr "./a" ] ]).
Proof. vm_compute. repeat split. Qed.

(** C10 as stated: any missing field makes the attempt fail. A
    descriptor without [docker.arch] renders the platform as
    [linux/undefined], one without [docker.image] passes [undefined] as
    the image; neither read throws, and when both processes exit with
    status 0 the attempt returns 0. *)
Lemma missing_docker_field_is_not_caught :
  ~ (forall w command file config extras t,
        command = "test" \/ command = "run" ->
        lacks_fields config = true ->
        exists t', attempt w command file config extras t = (Ret 1, t')).
Proof.
  intros H.
  destruct (H bare_host "test" (Some (file_token "a.zig")) no_arch_config [] []
              (or_introl eq_refl) eq_refl) as (t' & E).
  vm_compute in E. discriminate E.
Qed.

Example attempt_without_docker_arch :
  lacks_fields no_arch_config = true
  /\ attempt bare_host "test" (Some (file_token "a.zig")) no_arch_config [] []
     = (Ret 0,
        [ Mkdir "/tmp/zdq/x86_64/linux";
          Spawn "zig" [ VStr "test"; VStr "--test-no-exec"; VStr "-target";
                        VStr "x86_64-linux";
                        VStr "-femit-bin=/tmp/zdq/x86_64/linux/a.test";
                        VStr "a.zig" ];
          Stdout ("Running test in linux/undefined:" ++ nl)%string;
          Spawn "docker" [ VStr "run"; VStr "--platform"; VStr "linux/undefined";
                           VStr "-v";
                           VStr "/tmp/zdq/x86_64/linux:/home/zdq/x86_64/linux";
                           VStr "-w"; VStr "/home/zdq/x86_64/linux";
                           VStr "--rm"; VStr "-t"; VStr "-q";
                           VStr "ubuntu"; VStr "./a.test" ] ]).
Proof. vm_compute. split; reflexivity. Qed.

Example attempt_without_docker_image :
  lacks_fields no_image_config = true
  /\ attempt bare_host "run" (Some (file_token "a.zig")) no_image_config [] []
     = (Ret 0,
        [ Mkdir "/tmp/zdq/x86_64/linux";
          Spawn "zig" [ VStr "build-exe"; VStr "-target"; VStr "x86_64-linux";
                        VStr "-femit-bin=/tmp/zdq/x86_64/linux/a";
                        VStr "a.zig" ];
          Stdout ("Running executable in linux/amd64:" ++ nl)%string;
          Spawn "docker" [ VStr "run"; VStr "--platform"; VStr "linux/amd64";
                           VStr "-v";
                           VStr "/tmp/zdq/x86_64/linux:/home/zdq/x86_64/linux";
                           VStr "-w"; VStr "/home/zdq/x86_64/linux";
                           VStr "--rm"; VStr "-t";
                           VUndefined; VStr "./a" ] ]).
Proof. vm_compute. split; reflexivity. Qed.

(** ** The theorems at concrete inputs *)

Lemma missing_file_is_a_usage_error_witness :
  main bare_host ["amd64"; "--verbose"; "run"] []
  = (Exit 1, [] ++ [Stderr ("error: expected filename" ++ nl)%string]).
Proof.
  apply (missing_file_is_a_usage_error bare_host ["amd64"; "--verbose"; "run"] 0
           (consume 0 (map mk_token ["amd64"; "--verbose"; "run"]))
           default_amd64 2 [] []).
  - reflexivity.
  - vm_compute. reflexivity.
  - right. reflexivity.
  - reflexivity.
Defined.

Lemma bare_command_uses_all_configurations_witness :
  (forall store,
      resolve_selector named_host store (map mk_token ["run"; "a.zig"]) 0 []
      = (Ret (map mk_token ["run"; "a.zig"], VUndefined, 0), []))
  /\ main named_host ["run"; "a.zig"] []
     = bind (resolve_file (consume 0 (map mk_token ["run"; "a.zig"])) 0)
            (fun tf =>
               dispatch named_host (loadConfigurations named_host) "run"
                        (option_map (deref (fst tf)) (snd tf))
                        (extras_of (fst tf))
                        [ reify (linux_config "x86_64" "amd64");
                          reify (linux_config "aarch64" "arm64") ]) []
  /\ (true = true ->
      [ ("b", reify (linux_config "x86_64" "amd64"));
        ("a", reify (linux_config "aarch64" "arm64")) ]
      = insertion_order (map (fun m => (fst m, reify (snd m))) named_store)).
Proof.
  apply (bare_command_uses_all_configurations named_host ["run"; "a.zig"] 0
           (map (fun m => (fst m, reify (snd m))) named_store) []).
  - reflexivity.
  - reflexivity.
  - vm_compute. reflexivity.
Defined.


Lemma unvalidated_descriptor_counts_one_failure_witness :
  (attempt bare_host "test" (Some (file_token "a.zig")) VNull [] [] = (Ret 1, [])
   /\ loop bare_host (loadConfigurations bare_host) "test" (Some (file_token "a.zig")) []
           [VNull; default_amd64] 0 []
      = loop bare_host (loadConfigurations bare_host) "test" (Some (file_token "a.zig")) []
             [default_amd64] (0 + 1) [])
  /\ exists evs,
       Forall (fun ev => is_spawn "docker" ev = false) evs
       /\ attempt bare_host "test" (Some (file_token "a.zig")) no_docker_config [] []
          = (Ret 1, [] ++ evs)
       /\ loop bare_host (loadConfigurations bare_host) "test"
               (Some (file_token "a.zig")) [] [no_docker_config; default_amd64] 0 []
          = loop bare_host (loadConfigurations bare_host) "test"
                 (Some (file_token "a.zig")) [] [default_amd64] (0 + 1) ([] ++ evs).
Proof.
  split.
  - apply (unvalidated_descriptor_counts_one_failure bare_host
             (loadConfigurations bare_host) "test" (Some (file_token "a.zig")) []
             VNull [default_amd64] 0 [] (or_introl eq_refl)).
    reflexivity.
  - apply (unvalidated_descriptor_counts_one_failure bare_host
             (loadConfigurations bare_host) "test" (Some (file_token "a.zig")) []
             no_docker_config [default_amd64] 0 [] (or_introl eq_refl)).
    + reflexivity.
    + intros t args. discriminate.
Defined.

(** A [null] entry of the store, under a bare command and under its own
    name.  The bare [test] attempts it, counts one failure and goes on to
    the next entry.  Named as the selector it is falsy, so it is taken
    for missing, and the listing the program then prints fails on it
    before the first line: no attempt is made. *)
Example null_entry_under_a_bare_command :
  main null_entry_host ["test"; "a.zig"] []
  = (Exit 1,
     [ Mkdir "/tmp/zdq/x86_64/linux";
       Spawn "zig" [ VStr "test"; VStr "--test-no-exec";
                     VStr "-target"; VStr "x86_64-linux";
                     VStr "-femit-bin=/tmp/zdq/x86_64/linux/a.test"; VStr "a.zig" ];
       Stdout ("Running test in linux/amd64:" ++ nl)%string;
       Spawn "docker" [ VStr "run"; VStr "--platform"; VStr "linux/amd64";
                        VStr "-v";
                        VStr "/tmp/zdq/x86_64/linux:/home/zdq/x86_64/linux";
                        VStr "-w"; VStr "/home/zdq/x86_64/linux";
                        VStr "--rm"; VStr "-t"; VStr "-q";
                        VStr "ubuntu"; VStr "./a.test" ] ]).
Proof. vm_compute. reflexivity. Qed.

Example null_entry_is_not_selected :
  main null_entry_host ["x"; "test"; "a.zig"] [] = (Throw TypeError, []).
Proof. vm_compute. reflexivity. Qed.

(** The count on a host where the compiler starts and exits with 1. *)
Example failures_are_counted_with_a_failing_compiler :
  exists t',
    loop failing_compiler_host (loadConfigurations failing_compiler_host) "run"
         (Some (file_token "a.src")) [] [default_amd64; no_docker_config] 0 []
    = (Ret (Some 2), t')
    /\ dispatch failing_compiler_host (loadConfigurations failing_compiler_host) "run"
         (Some (file_token "a.src")) [] [default_amd64; no_docker_config] []
       = (Exit 1, t').
Proof.
  apply (failures_are_counted failing_compiler_host
           (loadConfigurations failing_compiler_host) "run"
           (Some (file_token "a.src")) [] [default_amd64; no_docker_config] []).
  - intros cmd t args. cbn. discriminate.
  - now right.
Qed.

Example compiler_exit_1_short_circuits :
  attempt failing_compiler_host "run" (Some (file_token "a.src")) default_amd64 [] []
  = (Ret 1,
     [ Mkdir "/tmp/zdq/x86_64/linux";
       Spawn "zig" [ VStr "build-exe"; VStr "-target"; VStr "x86_64-linux";
                     VStr "-femit-bin=/tmp/zdq/x86_64/linux/a"; VStr "a.src" ] ])
  /\ loop failing_compiler_host (VObj []) "run" (Some (file_token "a.src")) []
          [default_amd64; default_amd64] 0 []
     = loop failing_compiler_host (VObj []) "run" (Some (file_token "a.src")) []
            [default_amd64] (0 + 1)
            [ Mkdir "/tmp/zdq/x86_64/linux";
              Spawn "zig" [ VStr "build-exe"; VStr "-target"; VStr "x86_64-linux";
                            VStr "-femit-bin=/tmp/zdq/x86_64/linux/a"; VStr "a.src" ] ].
Proof.
  apply (thrown_compile_failure_short_circuits failing_compiler_host (VObj []) "run"
           (Some (file_token "a.src")) [] default_amd64 [default_amd64] 0 []
           (ExitCodeError 1)).
  - now right.
  - vm_compute. reflexivity.
Qed.

(** * Further properties *)

(** ** What the parts of the program never do *)

Ltac no_exit_more :=
  repeat first
    [ solve [ auto with js ]
    | apply no_exit_bind; [| intros ]
    | apply no_exit_try_catch; [| intros ]
    | progress cbv zeta
    | unfold pair_text, prop, str, print, log, file_value, destructure ].

Lemma no_exit_runTest w file config extras : no_exit (runTest w file config extras).
Proof. unfold runTest, runTest_body. no_exit_more. Qed.

Lemma no_exit_runProgram w file config extras :
  no_exit (runProgram w file config extras).
Proof. unfold runProgram, runProgram_body. no_exit_more. Qed.

Lemma no_exit_printHelp : no_exit printHelp.
Proof. unfold no_exit, printHelp. congruence. Qed.

Lemma no_exit_listConfigurations store : no_exit (listConfigurations store).
Proof.
  unfold listConfigurations. apply no_exit_bind; [apply no_exit_lift |].
  intros entries. induction entries as [| [name descriptor] rest IH]; cbn [list_entries].
  - apply no_exit_ret.
  - apply no_exit_bind; [| intros; exact IH]. unfold list_entry. no_exit_more.
Qed.

Lemma no_exit_get w obj key : no_exit (get w obj key).
Proof.
  unfold get. destruct obj; try apply no_exit_throw;
    destruct (own_property _ key); apply no_exit_ret.
Qed.

Lemma no_exit_configs_of selected store : no_exit (configs_of selected store).
Proof.
  unfold configs_of. destruct (truthy selected); [apply no_exit_ret | apply no_exit_lift].
Qed.

Lemma no_exit_loop w store command file extras configs :
  forall failures, no_exit (loop w store command file extras configs failures).
Proof.
  induction configs as [| config rest IH]; intros failures; cbn [loop].
  - apply no_exit_ret.
  - destruct (command =? "test").
    { apply no_exit_bind; [apply no_exit_runTest | intros; apply IH]. }
    destruct (command =? "run").
    { apply no_exit_bind; [apply no_exit_runProgram | intros; apply IH]. }
    destruct (command =? "list").
    { apply no_exit_bind; [apply no_exit_listConfigurations | intros; apply no_exit_ret]. }
    destruct (command =? "help").
    { apply no_exit_bind; [apply no_exit_printHelp | intros; apply no_exit_ret]. }
    apply IH.
Qed.

Lemma exits_with_no_exit {A : Type} (P : Z -> Prop) (m : M A) :
  no_exit m -> exits_with P m.
Proof. intros H t c t' E. now apply H in E. Qed.

Lemma exits_with_exit {A : Type} (P : Z -> Prop) (c : Z) :
  P c -> exits_with P (@exit A c).
Proof. intros H t c' t' [= <- _]. exact H. Qed.

Lemma exits_with_bind {A B : Type} (P : Z -> Prop) (m : M A) (f : A -> M B) :
  exits_with P m -> (forall a, exits_with P (f a)) -> exits_with P (bind m f).
Proof.
  intros Hm Hf t c t'. unfold bind.
  destruct (m t) as [[a | e | c0 | u] t0] eqn:E.
  - apply Hf.
  - discriminate.
  - intros [= <- _]. eapply Hm; eauto.
  - discriminate.
Qed.

Lemma exits_with_dispatch w store command file extras configs :
  exits_with (fun c => c = 0 \/ c = 1)%Z
             (dispatch w store command file extras configs).
Proof.
  unfold dispatch. apply exits_with_bind.
  - apply exits_with_no_exit, no_exit_loop.
  - intros [failures |]; [| apply exits_with_no_exit, no_exit_ret].
    apply exits_with_exit. destruct (Nat.eqb failures 0); auto.
Qed.

Lemma exits_with_resolve_file tokens command :
  exits_with (fun c => c = 0 \/ c = 1)%Z (resolve_file tokens command).
Proof.
  unfold resolve_file.
  destruct (includes ["run"; "test"] (value (deref tokens command)));
    [| apply exits_with_no_exit, no_exit_ret].
  destruct (find_index unconsumed_positional tokens);
    [apply exits_with_no_exit, no_exit_ret |].
  apply exits_with_bind; [apply exits_with_no_exit, no_exit_emit |].
  intros _. apply exits_with_exit. now right.
Qed.

Lemma exits_with_resolve_selector w store tokens command :
  exits_with (fun c => c = 0 \/ c = 1)%Z (resolve_selector w store tokens command).
Proof.
  unfold resolve_selector.
  destruct (negb (includes availableCommands (value (deref tokens command))));
    [| apply exits_with_no_exit, no_exit_ret].
  apply exits_with_bind; [apply exits_with_no_exit, no_exit_get |].
  intros selected. destruct (negb (truthy selected)).
  - apply exits_with_bind; [apply exits_with_no_exit, no_exit_listConfigurations |].
    intros _. apply exits_with_bind; [apply exits_with_no_exit, no_exit_emit |].
    intros _. apply exits_with_exit. now right.
  - destruct (find_index unconsumed_positional (consume command tokens));
      [apply exits_with_no_exit, no_exit_ret |].
    apply exits_with_bind; [apply exits_with_no_exit, no_exit_printHelp |].
    intros _. apply exits_with_bind; [apply exits_with_no_exit, no_exit_emit |].
    intros _. apply exits_with_exit. now right.
Qed.

Lemma exits_with_run_command w store tokens selected command :
  exits_with (fun c => c = 0 \/ c = 1)%Z (run_command w store tokens selected command).
Proof.
  unfold run_command. apply exits_with_bind; [apply exits_with_resolve_file |].
  intros tf. apply exits_with_bind.
  - apply exits_with_no_exit, no_exit_configs_of.
  - intros configs. apply exits_with_dispatch.
Qed.

(** X1. Whatever the arguments, the store and the host: when the program
    ends through [process.exit], the status is 0 or 1.  In particular
    the exit code of a child is never passed on. *)
Theorem exit_status_is_0_or_1 w argv t c t' :
  main w argv t = (Exit c, t') -> (c = 0 \/ c = 1)%Z.
Proof.
  revert t c t'. change (exits_with (fun c => c = 0 \/ c = 1)%Z (main w argv)).
  unfold main. destruct (find_index positional (map mk_token argv)) as [c0 |].
  - apply exits_with_bind; [apply exits_with_resolve_selector |].
    intros [[tokens selected] command]. apply exits_with_run_command.
  - apply exits_with_bind; [apply exits_with_no_exit, no_exit_printHelp |].
    intros _. apply exits_with_exit. now left.
Qed.

Section Emits.

Variable P : Event -> Prop.
Hypothesis P_stdout : forall s, P (Stdout s).

Lemma emits_help : emits P printHelp.
Proof.
  intros t r t' H. exists (map Stdout help_text). split.
  - unfold printHelp in H. congruence.
  - apply Forall_forall. intros e He. apply in_map_iff in He.
    destruct He as (s & <- & _). apply P_stdout.
Qed.

Lemma emits_listing store : emits P (listConfigurations store).
Proof.
  unfold listConfigurations. apply emits_bind; [apply emits_lift |].
  intros entries. induction entries as [| [name descriptor] rest IH]; cbn [list_entries].
  - apply emits_ret.
  - apply emits_bind; [| intros; exact IH]. unfold list_entry.
    repeat first
      [ apply emits_bind; [| intros ]
      | apply emits_ret | apply emits_lift
      | apply emits_emit; apply P_stdout
      | progress cbv zeta
      | unfold pair_text, prop, str, print, destructure ].
Qed.

Lemma emits_get w obj key : emits P (get w obj key).
Proof.
  unfold get. destruct obj; try apply emits_throw;
    destruct (own_property _ key); apply emits_ret.
Qed.

Lemma emits_configs_of selected store : emits P (configs_of selected store).
Proof.
  unfold configs_of. destruct (truthy selected); [apply emits_ret | apply emits_lift].
Qed.

Hypothesis P_mkdir : forall path, P (Mkdir path).
Hypothesis P_spawn : forall cmd args, P (Spawn cmd args).

Ltac emits_attempt :=
  repeat first
    [ apply emits_ret | apply emits_lift | apply emits_join
    | apply emits_makeDir; apply P_mkdir
    | apply emits_run; apply P_spawn
    | apply emits_emit; apply P_stdout
    | apply emits_bind; [| intros ]
    | apply emits_try_catch; [| intros ]
    | progress cbv zeta
    | unfold pair_text, prop, str, print, file_value, destructure ].

Lemma emits_runTest w file config extras : emits P (runTest w file config extras).
Proof. unfold runTest, runTest_body. emits_attempt. Qed.

Lemma emits_runProgram w file config extras :
  emits P (runProgram w file config extras).
Proof. unfold runProgram, runProgram_body. emits_attempt. Qed.

Lemma emits_loop w store command file extras configs :
  forall failures, emits P (loop w store command file extras configs failures).
Proof.
  induction configs as [| config rest IH]; intros failures; cbn [loop].
  - apply emits_ret.
  - destruct (command =? "test").
    { apply emits_bind; [apply emits_runTest | intros; apply IH]. }
    destruct (command =? "run").
    { apply emits_bind; [apply emits_runProgram | intros; apply IH]. }
    destruct (command =? "list").
    { apply emits_bind; [apply emits_listing | intros; apply emits_ret]. }
    destruct (command =? "help").
    { apply emits_bind; [apply emits_help | intros; apply emits_ret]. }
    apply IH.
Qed.

Lemma emits_dispatch w store command file extras configs :
  emits P (dispatch w store command file extras configs).
Proof.
  unfold dispatch. apply emits_bind; [apply emits_loop |].
  intros [failures |]; [apply emits_exit | apply emits_ret].
Qed.

End Emits.

(** ** The script's own error messages *)

Lemma log_of_emits {A : Type} (m : M A) :
  emits not_log_line m -> log_then_exit_1 m.
Proof.
  intros H t r t' E. destruct (H _ _ _ E) as (evs & -> & Hevs). eauto.
Qed.

Lemma log_bind {A B : Type} (m : M A) (f : A -> M B) :
  log_then_exit_1 m -> (forall a, log_then_exit_1 (f a)) ->
  log_then_exit_1 (bind m f).
Proof.
  intros Hm Hf t r t'. unfold bind.
  destruct (m t) as [[a | e | c | u] t0] eqn:E; intros H;
    destruct (Hm _ _ _ E) as (evs & -> & Hevs).
  - destruct (Hf a _ _ _ H) as (evs' & -> & Hevs').
    exists (evs ++ evs'). split; [now rewrite app_assoc |].
    destruct Hevs as [Hevs | Hevs]; [| discriminate].
    destruct Hevs' as [Hevs' | Hevs']; [left; now apply Forall_app | now right].
  - injection H as <- <-. exists evs. split; [reflexivity |].
    destruct Hevs as [Hevs | Hevs]; [now left | discriminate].
  - injection H as <- <-. exists evs. split; [reflexivity |].
    destruct Hevs as [Hevs | [= ->]]; [now left | now right].
  - injection H as <- <-. exists evs. split; [reflexivity |].
    destruct Hevs as [Hevs | Hevs]; [now left | discriminate].
Qed.

Lemma log_usage_error {A : Type} (text : string) :
  log_then_exit_1 (bind (log text) (fun _ => @exit A 1)).
Proof.
  intros t r t' [= <- <-]. exists [Stderr text]. split; [reflexivity | now right].
Qed.

Lemma log_ret {A : Type} (a : A) : log_then_exit_1 (ret a).
Proof. apply log_of_emits, emits_ret. Qed.

Lemma log_resolve_selector w store tokens command :
  log_then_exit_1 (resolve_selector w store tokens command).
Proof.
  unfold resolve_selector.
  destruct (negb (includes availableCommands (value (deref tokens command))));
    [| apply log_ret].
  apply log_bind; [apply log_of_emits, emits_get |].
  intros selected. destruct (negb (truthy selected)).
  - apply log_bind; [| intros; apply log_usage_error].
    apply log_of_emits, emits_listing. intros s. exact I.
  - destruct (find_index unconsumed_positional (consume command tokens));
      [apply log_ret |].
    apply log_bind; [| intros; apply log_usage_error].
    apply log_of_emits, emits_help. intros s. exact I.
Qed.

Lemma log_run_command w store tokens selected command :
  log_then_exit_1 (run_command w store tokens selected command).
Proof.
  unfold run_command. apply log_bind.
  - unfold resolve_file.
    destruct (includes ["run"; "test"] (value (deref (consume command tokens) command)));
      [| apply log_ret].
    destruct (find_index unconsumed_positional (consume command tokens));
      [apply log_ret | apply log_usage_error].
  - intros tf. apply log_bind; [apply log_of_emits, emits_configs_of |].
    intros configs. apply log_of_emits, emits_dispatch; intros; exact I.
Qed.

Lemma log_main w argv : log_then_exit_1 (main w argv).
Proof.
  unfold main. destruct (find_index positional (map mk_token argv)) as [c0 |].
  - apply log_bind; [apply log_resolve_selector |].
    intros [[tokens selected] command]. apply log_run_command.
  - apply log_of_emits. apply emits_bind; [| intros; apply emits_exit].
    apply emits_help. intros s. exact I.
Qed.

(** X2. The script's own error messages are the usage errors: if a run
    of the program has written a line through [log], the run ends with
    [process.exit(1)].  A run that ends in any other way (the function
    returning, a status 0, an error nobody catches) has called [log] for
    nothing; failed builds and runs, the listing and the help do not
    call it.  (What the children and the runtime put on the inherited
    error stream is not in the trace, and this says nothing of it.) *)
Theorem log_lines_only_with_exit_1 w argv t r evs :
  main w argv t = (r, t ++ evs) ->
  Exists is_log_line evs ->
  r = Exit 1%Z.
Proof.
  intros E Hs. destruct (log_main w argv _ _ _ E) as (evs' & Happ & [Hq | Hr]);
    [| exact Hr].
  apply app_inv_head in Happ. subst evs'. exfalso.
  apply Exists_exists in Hs. destruct Hs as (e & Hin & He).
  rewrite Forall_forall in Hq. specialize (Hq _ Hin).
  destruct e; cbn in *; contradiction.
Qed.

(** The attempts and the dispatcher are silent on the error stream and
    only ever add directory creations, process starts and lines on the
    standard output. *)
Lemma dispatch_is_silent w store command file extras configs :
  emits not_log_line (dispatch w store command file extras configs).
Proof. apply emits_dispatch; intros; exact I. Qed.

(** ** Invocations without a positional argument *)

Lemma no_positional_token (argv : list string) :
  forallb is_flag argv = true ->
  find_index positional (map mk_token argv) = None.
Proof.
  induction argv as [| a r IH]; [reflexivity |].
  cbn [forallb map find_index]. intros H. apply andb_prop in H. destruct H as [Ha Hr].
  unfold positional at 1. cbn [flags mk_token]. unfold is_flag in Ha. rewrite Ha.
  cbn [negb]. now rewrite (IH Hr).
Qed.

(** X3. When every argument is a flag (or there is none), the program
    prints the help text and exits with status 0, on every host and
    whatever its store file holds. *)
Theorem flags_alone_print_the_help w argv t :
  forallb is_flag argv = true ->
  main w argv t = (Exit 0, t ++ map Stdout help_text).
Proof.
  intros H. unfold main. now rewrite (no_positional_token _ H).
Qed.

(** ** [list] and [help] *)

Lemma loop_list_or_help w store command file extras configs failures :
  command = "list" \/ command = "help" ->
  emits is_stdout (loop w store command file extras configs failures)
  /\ returns (fun r => r = None \/ r = Some failures)
             (loop w store command file extras configs failures).
Proof.
  intros Hc. destruct configs as [| config rest]; cbn [loop].
  - split; [apply emits_ret | apply returns_ret; now right].
  - destruct Hc as [-> | ->]; cbn [String.eqb Ascii.eqb Bool.eqb]; split.
    + apply emits_bind; [| intros; apply emits_ret].
      apply emits_listing. intros s. exact I.
    + apply returns_bind. intros _. apply returns_ret. now left.
    + apply emits_bind; [| intros; apply emits_ret].
      apply emits_help. intros s. exact I.
    + apply returns_bind. intros _. apply returns_ret. now left.
Qed.

Lemma dispatch_list_or_help_exits w store command file extras configs :
  command = "list" \/ command = "help" ->
  exits_with (fun c => c = 0%Z) (dispatch w store command file extras configs).
Proof.
  intros Hc t c t'. unfold dispatch, bind.
  destruct (loop w store command file extras configs 0 t) as [[r | e | c0 | u] t0] eqn:E.
  - destruct (proj2 (loop_list_or_help w store _ file _ configs 0 Hc) _ _ _ E)
      as [-> | ->]; unfold ret, exit; cbn; [discriminate |].
    now intros [= <- _].
  - discriminate.
  - now apply no_exit_loop in E.
  - discriminate.
Qed.

(** X6. Once the command is [list] or [help] (with or without a selector,
    whatever the store holds), the program writes to the standard output
    only: no error message, no directory, no process; and if it calls
    [process.exit], the status is 0. *)
Theorem list_and_help_only_print w store tokens selected command :
  value (deref tokens command) = "list" \/ value (deref tokens command) = "help" ->
  emits is_stdout (run_command w store tokens selected command)
  /\ exits_with (fun c => c = 0%Z) (run_command w store tokens selected command).
Proof.
  intros Hc. unfold run_command, resolve_file. rewrite value_consume.
  assert (Hi : includes ["run"; "test"] (value (deref tokens command)) = false)
    by (destruct Hc as [-> | ->]; reflexivity).
  rewrite Hi. split.
  - apply emits_bind_ret. cbn [fst snd]. rewrite value_consume.
    apply emits_bind; [apply emits_configs_of |]. intros configs.
    unfold dispatch. apply emits_bind; [now apply loop_list_or_help |].
    intros [failures |]; [apply emits_exit | apply emits_ret].
  - intros t c t'. rewrite bind_ret. cbn [fst snd]. rewrite value_consume.
    revert t c t'. apply exits_with_bind.
    { apply exits_with_no_exit, no_exit_configs_of. }
    intros configs. now apply dispatch_list_or_help_exits.
Qed.

(** ** What an attempt starts, and in which order *)

Lemma run_result w cmd args t :
  run w cmd args t
  = (child_outcome (child_close w t cmd args), t ++ [Spawn cmd args]).
Proof.
  unfold run. destruct (child_close w t cmd args) as [[code |] | |]; cbn; try reflexivity.
  now destruct (code =? 0)%Z.
Qed.

Lemma child_outcome_ret (r : ChildResult) (u : unit) :
  child_outcome r = Ret u -> closes_ok r = true.
Proof.
  destruct r as [[code |] | |]; cbn; try discriminate; try reflexivity.
  now destruct (code =? 0)%Z.
Qed.

Lemma bind_run {B : Type} w cmd args (f : unit -> M B) t :
  bind (run w cmd args) f t
  = match child_close w t cmd args with
    | ErrorEvent => (Uncaught SpawnError, t ++ [Spawn cmd args])
    | r => if closes_ok r then f tt (t ++ [Spawn cmd args])
           else (Throw (close_error r), t ++ [Spawn cmd args])
    end.
Proof.
  unfold bind. rewrite run_result.
  destruct (child_close w t cmd args) as [[code |] | |]; cbn; try reflexivity.
  now destruct (code =? 0)%Z.
Qed.

Lemma makeDir_result w path t :
  makeDir w path t
  = (match fs_mkdir w t path with
     | None => Ret tt
     | Some code => if code =? "EEXIST" then Ret tt else Throw (FsError code)
     end, t ++ [Mkdir path]).
Proof.
  unfold makeDir, try_catch, mkdir. destruct (fs_mkdir w t path) as [code |];
    [| reflexivity].
  cbn [has_code]. now destruct (code =? "EEXIST").
Qed.

Lemma bind_cases {A B : Type} (m : M A) (f : A -> M B) t r t' :
  bind m f t = (r, t') ->
  (exists a t0, m t = (Ret a, t0) /\ f a t0 = (r, t'))
  \/ (exists e, m t = (Throw e, t') /\ r = Throw e)
  \/ (exists c, m t = (Exit c, t') /\ r = Exit c)
  \/ (exists e, m t = (Uncaught e, t') /\ r = Uncaught e).
Proof.
  unfold bind. destruct (m t) as [[a | e | c | u] t0].
  - intros H. left. eauto.
  - intros [= <- <-]. right. left. eauto.
  - intros [= <- <-]. right. right. left. eauto.
  - intros [= <- <-]. right. right. right. eauto.
Qed.

(** A step that touches nothing: it returns or throws, and the trace
    stays as it is. *)
Lemma bind_pure_cases {A B : Type} (m : M A) (f : A -> M B) t r t' :
  emits (fun _ => False) m -> no_exit m -> survives m ->
  bind m f t = (r, t') ->
  (exists a, f a t = (r, t')) \/ (exists e, r = Throw e /\ t' = t).
Proof.
  intros Hp Hn Hs H. unfold bind in H.
  destruct (m t) as [[a | e | c | u] t0] eqn:Hm.
  - destruct (Hp _ _ _ Hm) as (evs & -> & Hevs).
    destruct evs as [| ev evs]; [| now inversion Hevs].
    rewrite app_nil_r in H. eauto.
  - destruct (Hp _ _ _ Hm) as (evs & -> & Hevs).
    destruct evs as [| ev evs]; [| now inversion Hevs].
    injection H as <- <-. right. exists e. now rewrite app_nil_r.
  - now apply Hn in Hm.
  - now apply Hs in Hm.
Qed.

Ltac pure_step H :=
  match type of H with
  | bind ?m ?f ?t = _ =>
      let Hp := fresh in
      let Hn := fresh in
      let Hs := fresh in
      let Hx := fresh in
      assert (Hp : emits (fun _ => False) m) by emits_tac;
      assert (Hn : no_exit m) by no_exit_tac;
      assert (Hs : survives m) by survives_tac;
      destruct (bind_pure_cases m f t _ _ Hp Hn Hs H) as [[? Hx] | (? & -> & ->)];
      clear H Hp Hn Hs; [ rename Hx into H; cbv beta zeta in H | ]
  end.

(** The three ways a build step can end: before anything was done, after
    the directory creation, or after the compiler start; and it returns
    only when the compiler has closed with a falsy code. *)
Lemma build_step_cases w command file config extras t r t' :
  build_step w command file config extras t = (r, t') ->
  (exists e, r = Throw e /\ t' = t)
  \/ (exists e dir, r = Throw e /\ t' = t ++ [Mkdir dir])
  \/ (exists dir args,
         t' = t ++ [Mkdir dir; Spawn "zig" args]
         /\ ((exists b, r = Ret b) ->
             closes_ok (child_close w (t ++ [Mkdir dir]) "zig" args) = true)).
Proof.
  unfold build_step. intros H.
  do 6 (pure_step H; [| left; eauto]).
  unfold bind at 1 in H. rewrite makeDir_result in H.
  match type of H with
  | context [fs_mkdir ?w ?t ?p] => destruct (fs_mkdir w t p) as [code |]
  end.
  1: destruct (code =? "EEXIST").
  2: { injection H as <- <-. right. left. eauto. }
  all: do 2 (pure_step H; [| right; left; eauto]).
  all: right; right; unfold bind at 1 in H; rewrite run_result in H.
  all: match type of H with
       | context [child_outcome ?r] => destruct (child_outcome r) eqn:Eo
       end.
  all: injection H as <- <-; do 2 eexists;
    (split; [now rewrite <- app_assoc |]).
  all: first [ intros _; now apply child_outcome_ret in Eo
             | intros (b & [=]) ].
Qed.

(** The three ways a run step can end: before anything was done, after
    the announcement, or after the container start; and it returns, 0,
    only when the container has closed with a falsy code. *)
Lemma run_step_cases w command b t r t' :
  run_step w command b t = (r, t') ->
  (exists e, r = Throw e /\ t' = t)
  \/ (exists e line, r = Throw e /\ t' = t ++ [Stdout line])
  \/ (exists line args,
         t' = t ++ [Stdout line; Spawn "docker" args]
         /\ (forall n, r = Ret n ->
             n = 0
             /\ closes_ok (child_close w (t ++ [Stdout line]) "docker" args) = true)).
Proof.
  unfold run_step. intros H.
  do 2 (pure_step H; [| left; eauto]).
  unfold print in H. rewrite bind_emit in H.
  do 2 (pure_step H; [| right; left; eauto]).
  right. right. unfold bind at 1 in H. rewrite run_result in H.
  match type of H with
  | context [child_outcome ?r] => destruct (child_outcome r) eqn:Eo
  end.
  all: injection H as <- <-; do 2 eexists;
    (split; [now rewrite <- app_assoc |]).
  all: intros n [= <-] || intros n [=].
  split; [reflexivity | now apply child_outcome_ret in Eo].
Qed.

(** X14. Whatever the configuration holds and however the host answers, an
    attempt adds to the trace an initial part of the sequence: one
    directory creation, one compiler start, one line on the standard
    output, one container start.  So a configuration gets at most one
    compiler and at most one container, the container never before the
    compiler. *)
Theorem attempt_adds_a_prefix_of_four_events w command file config extras t r t' :
  command = "test" \/ command = "run" ->
  attempt w command file config extras t = (r, t') ->
  exists dir zig_args line docker_args evs rest,
    t' = t ++ evs
    /\ evs ++ rest = [ Mkdir dir; Spawn "zig" zig_args;
                       Stdout line; Spawn "docker" docker_args ].
Proof.
  intros Hc H. rewrite (attempt_steps _ _ _ _ _ _ Hc) in H.
  unfold try_catch in H.
  destruct (bind (build_step w command file config extras) (run_step w command) t)
    as [r0 t0] eqn:E.
  assert (Ht : t' = t0)
    by (destruct r0; unfold ret in H; congruence).
  subst t0. clear H.
  apply bind_cases in E.
  destruct E as [(b & t1 & Eb & Er) | [(e' & Eb & _) | [(c' & Eb & _) | (u' & Eb & _)]]];
    [| | now apply no_exit_build_step in Eb |].
  1: apply run_step_cases in Er;
     destruct Er as [(e1 & _ & ->) | [(e1 & line & _ & ->) | (line & dargs & -> & _)]].
  all: apply build_step_cases in Eb;
    destruct Eb as [(e2 & He & ->) | [(e2 & dir & He & ->) | (dir & zargs & -> & Hz)]].
  all: rewrite <- ?app_assoc; cbn [app].
  all: first
    [ exists "", [], "", [], [],
        [Mkdir ""; Spawn "zig" []; Stdout ""; Spawn "docker" []];
      split; [symmetry; apply app_nil_r | reflexivity]
    | exists dir, [], "", [], [Mkdir dir],
        [Spawn "zig" []; Stdout ""; Spawn "docker" []];
      split; reflexivity
    | exists dir, zargs, "", [], [Mkdir dir; Spawn "zig" zargs],
        [Stdout ""; Spawn "docker" []];
      split; reflexivity
    | exists dir, zargs, line, [], [Mkdir dir; Spawn "zig" zargs; Stdout line],
        [Spawn "docker" []];
      split; reflexivity
    | exists dir, zargs, line, dargs,
        [Mkdir dir; Spawn "zig" zargs; Stdout line; Spawn "docker" dargs], [];
      split; reflexivity
    | discriminate ].
Qed.

(** X15. A run of an attempt that returns 0 has created the directory,
    started the compiler, announced the container and started it, in
    this order and nothing else, and both children closed with a falsy
    code: no success is reported for a step that was skipped or failed. *)
Theorem success_means_both_children_closed_cleanly
    w command file config extras t t' :
  command = "test" \/ command = "run" ->
  attempt w command file config extras t = (Ret 0, t') ->
  exists dir zig_args line docker_args,
    t' = t ++ [ Mkdir dir; Spawn "zig" zig_args;
                Stdout line; Spawn "docker" docker_args ]
    /\ closes_ok (child_close w (t ++ [Mkdir dir]) "zig" zig_args) = true
    /\ closes_ok (child_close w (t ++ [Mkdir dir; Spawn "zig" zig_args; Stdout line])
                              "docker" docker_args) = true.
Proof.
  intros Hc H. rewrite (attempt_steps _ _ _ _ _ _ Hc) in H.
  unfold try_catch in H.
  destruct (bind (build_step w command file config extras) (run_step w command) t)
    as [[n | e | c | u] t0] eqn:E; try discriminate H.
  injection H as -> ->.
  apply bind_cases in E.
  destruct E as [(b & t1 & Eb & Er) | [(e' & _ & [=]) | [(c' & _ & [=]) | (u' & _ & [=])]]].
  apply run_step_cases in Er.
  destruct Er as [(e1 & [=] & _) | [(e1 & line & [=] & _) | (line & dargs & -> & Hd)]].
  destruct (Hd 0 eq_refl) as [_ Hd'].
  apply build_step_cases in Eb.
  destruct Eb as [(e2 & [=] & _) | [(e2 & dir & [=] & _) | (dir & zargs & -> & Hz)]].
  specialize (Hz (ex_intro _ b eq_refl)).
  exists dir, zargs, line, dargs. rewrite <- !app_assoc in *. cbn [app] in *.
  auto.
Qed.

(** With a descriptor whose [zig] sub-record has strings for [arch] and
    [platform], the build step is: make the scratch directory, run the
    compiler with [compiler_args]. *)
Lemma build_step_with_zig_strings w command file config extras t :
  is_string (read (read config "zig") "arch") = true ->
  is_string (read (read config "zig") "platform") = true ->
  build_step w command (Some file) config extras t
  = bind (makeDir w (scratch_dir w config))
      (fun _ => bind (run w "zig" (compiler_args w command file config extras))
         (fun _ => ret {| built_zig := read config "zig";
                          built_docker := read config "docker";
                          built_dir := scratch_dir w config;
                          built_name := binary_name w command file |})) t.
Proof.
  intros Ha Hp.
  pose proof (string_field_parent _ _ Ha) as Hz.
  pose proof (read_parent _ _ Hz) as Hc.
  unfold build_step, destructure, prop, file_value, join.
  rewrite !(field_read _ _ Hc). cbn [lift option_map]. monad_simpl. cbn [fst snd].
  rewrite !(read_string_field _ _ Ha), !(read_string_field _ _ Hp).
  cbn [lift strings option_map]. monad_simpl.
  cbn [lift strings option_map]. monad_simpl.
  apply bind_ext. intros _ t1.
  rewrite (bind_pair_text _ _ _ _ _ _ _ _ (read_string_field _ _ Ha)
             (read_string_field _ _ Hp)).
  reflexivity.
Qed.

(** With the four fields of the two targets strings, the run step is:
    print the announcement, run the container with [container_args]. *)
Lemma run_step_with_strings w command file config t :
  is_string (read (read config "zig") "arch") = true ->
  is_string (read (read config "zig") "platform") = true ->
  is_string (read (read config "docker") "arch") = true ->
  is_string (read (read config "docker") "platform") = true ->
  run_step w command
    {| built_zig := read config "zig"; built_docker := read config "docker";
       built_dir := scratch_dir w config;
       built_name := binary_name w command file |} t
  = bind (print (container_line command config))
      (fun _ => bind (run w "docker" (container_args w command file config))
         (fun _ => ret 0)) t.
Proof.
  intros Ha Hp Hda Hdp.
  pose proof (string_field_parent _ _ Hda) as Hd.
  unfold run_step. cbn [built_zig built_docker built_dir built_name].
  rewrite (bind_pair_text _ _ _ _ _ _ _ _ (read_string_field _ _ Ha)
             (read_string_field _ _ Hp)).
  rewrite (bind_pair_text _ _ _ _ _ _ _ _ (read_string_field _ _ Hdp)
             (read_string_field _ _ Hda)).
  apply bind_ext. intros _ t1.
  rewrite (bind_pair_text _ _ _ _ _ _ _ _ (read_string_field _ _ Hdp)
             (read_string_field _ _ Hda)).
  unfold prop. rewrite (field_read _ _ Hd). cbn [lift]. rewrite bind_ret.
  reflexivity.
Qed.

(** With strings in its [zig] sub-record and a scratch directory that
    can be made, a configuration gets its compiler started, with
    [compiler_args], whatever comes of it. *)
Lemma build_step_trace w command file config extras t :
  is_string (read (read config "zig") "arch") = true ->
  is_string (read (read config "zig") "platform") = true ->
  fs_mkdir w t (scratch_dir w config) = None
  \/ fs_mkdir w t (scratch_dir w config) = Some "EEXIST" ->
  snd (build_step w command (Some file) config extras t)
  = t ++ [ Mkdir (scratch_dir w config);
           Spawn "zig" (compiler_args w command file config extras) ].
Proof.
  intros Ha Hp Hm. rewrite build_step_with_zig_strings by assumption.
  unfold bind at 1. rewrite makeDir_result.
  replace (match fs_mkdir w t (scratch_dir w config) with
           | Some code => if code =? "EEXIST" then Ret tt else Throw (FsError code)
           | None => Ret tt
           end) with (@Ret unit tt) by (destruct Hm as [-> | ->]; reflexivity).
  rewrite bind_run, <- app_assoc. cbn [app].
  destruct (child_close _ _ _ _) as [[code |] | |]; cbn [closes_ok];
    try reflexivity.
  now destruct (code =? 0)%Z.
Qed.

Lemma attempt_extends_build w command file config extras t :
  command = "test" \/ command = "run" ->
  exists evs,
    snd (attempt w command file config extras t)
    = snd (build_step w command file config extras t) ++ evs.
Proof.
  intros Hc. rewrite (attempt_steps _ _ _ _ _ _ Hc). unfold try_catch, bind.
  destruct (build_step w command file config extras t) as [[b | e | c | u] t1];
    cbn [snd]; try (exists []; now rewrite app_nil_r).
  destruct (run_step w command b t1) as [r2 t2] eqn:Er.
  assert (He : emits (fun _ => True) (run_step w command b))
    by (unfold run_step; emits_tac; exact I).
  destruct (He _ _ _ Er) as (evs & -> & _).
  exists evs. now destruct r2.
Qed.

(** X16. The whole of an attempt on a populated configuration whose scratch
    directory can be made or exists already: the directory
    [<tmp>/zdq/<arch>/<platform>] is made and the compiler is started
    with [-femit-bin] inside that directory.  If the compiler cannot be
    started the process dies there.  If it closes with a non-zero code
    the attempt returns 1 there.  Otherwise the announcement is printed
    and the container is started, with that same directory mounted at
    [/home/zdq/<arch>/<platform>], which is also its working directory;
    if the container runtime cannot be started the process dies, and
    else the attempt returns 0 or 1 as the container closes.  A child
    that closes without a code (killed by a signal) counts as a success. *)
Theorem attempt_on_a_populated_configuration w command file config extras t :
  command = "test" \/ command = "run" ->
  populated config = true ->
  fs_mkdir w t (scratch_dir w config) = None
  \/ fs_mkdir w t (scratch_dir w config) = Some "EEXIST" ->
  let compiled :=
    t ++ [ Mkdir (scratch_dir w config);
           Spawn "zig" (compiler_args w command file config extras) ] in
  let ran :=
    compiled ++ [ Stdout (container_line command config);
                  Spawn "docker" (container_args w command file config) ] in
  attempt w command (Some file) config extras t
  = match child_close w (t ++ [Mkdir (scratch_dir w config)]) "zig"
            (compiler_args w command file config extras) with
    | ErrorEvent => (Uncaught SpawnError, compiled)
    | compiler =>
        if closes_ok compiler then
          match child_close w (compiled ++ [Stdout (container_line command config)])
                  "docker" (container_args w command file config) with
          | ErrorEvent => (Uncaught SpawnError, ran)
          | container => (Ret (if closes_ok container then 0 else 1), ran)
          end
        else (Ret 1, compiled)
    end.
Proof.
  intros Hc H Hm compiled ran. unfold populated in H.
  repeat (apply andb_prop in H; destruct H as [H ?]).
  rewrite (attempt_steps _ _ _ _ _ _ Hc).
  unfold try_catch. unfold bind at 1.
  rewrite build_step_with_zig_strings by assumption.
  unfold bind at 1. rewrite makeDir_result.
  replace (match fs_mkdir w t (scratch_dir w config) with
           | Some code => if code =? "EEXIST" then Ret tt else Throw (FsError code)
           | None => Ret tt
           end) with (@Ret unit tt) by (destruct Hm as [-> | ->]; reflexivity).
  rewrite bind_run.
  replace ((t ++ [Mkdir (scratch_dir w config)])
           ++ [Spawn "zig" (compiler_args w command file config extras)])
    with compiled by (unfold compiled; now rewrite <- app_assoc).
  assert (Hrun : run_step w command
                   {| built_zig := read config "zig";
                      built_docker := read config "docker";
                      built_dir := scratch_dir w config;
                      built_name := binary_name w command file |} compiled
                 = match child_close w
                           (compiled ++ [Stdout (container_line command config)])
                           "docker" (container_args w command file config) with
                   | ErrorEvent => (Uncaught SpawnError, ran)
                   | container =>
                       if closes_ok container then (Ret 0, ran)
                       else (Throw (close_error container), ran)
                   end).
  { rewrite run_step_with_strings by assumption.
    unfold print. rewrite bind_emit, bind_run.
    replace ((compiled ++ [Stdout (container_line command config)])
             ++ [Spawn "docker" (container_args w command file config)])
      with ran by (unfold ran; now rewrite <- app_assoc).
    reflexivity. }
  destruct (child_close w (t ++ [Mkdir (scratch_dir w config)]) "zig"
              (compiler_args w command file config extras)) as [[zc |] | |];
    cbn [closes_ok ret]; try reflexivity.
  1: destruct (zc =? 0)%Z; [| reflexivity].
  all: unfold ret at 1; cbv iota beta; rewrite Hrun;
    destruct (child_close w (compiled ++ [Stdout (container_line command config)])
                "docker" (container_args w command file config)) as [[dc |] | |];
    cbn [closes_ok ret]; try reflexivity;
    now destruct (dc =? 0)%Z.
Qed.

(** X17. When the scratch directory cannot be made, for a reason other than
    its existence, the attempt is over: it returns 1 and neither the
    compiler nor the container is started. *)
Theorem unmakeable_directory_stops_the_attempt w command file config extras t code :
  command = "test" \/ command = "run" ->
  is_string (read (read config "zig") "arch") = true ->
  is_string (read (read config "zig") "platform") = true ->
  fs_mkdir w t (scratch_dir w config) = Some code ->
  code <> "EEXIST" ->
  attempt w command (Some file) config extras t
  = (Ret 1, t ++ [Mkdir (scratch_dir w config)]).
Proof.
  intros Hc Ha Hp Hm Hcode.
  rewrite (attempt_steps _ _ _ _ _ _ Hc).
  unfold try_catch. unfold bind at 1.
  rewrite build_step_with_zig_strings by assumption.
  unfold bind at 1. rewrite makeDir_result, Hm.
  apply String.eqb_neq in Hcode. now rewrite Hcode.
Qed.

(** ** Invocations that name a configuration *)

Lemma get_own w store name selected t :
  own_property store name = Some selected ->
  get w store name t = (Ret selected, t).
Proof.
  unfold get. destruct store; cbn [own_property]; intros H;
    try discriminate; now rewrite H.
Qed.

(** A first word that is an own, truthy entry of the store selects it;
    the next positional word is then the command. *)
Lemma main_with_selector w argv c0 selected c1 t :
  find_index positional (map mk_token argv) = Some c0 ->
  includes availableCommands (nth c0 argv "") = false ->
  own_property (loadConfigurations w) (nth c0 argv "") = Some selected ->
  truthy selected = true ->
  find_index unconsumed_positional (consume c0 (map mk_token argv)) = Some c1 ->
  main w argv t
  = run_command w (loadConfigurations w) (consume c0 (map mk_token argv))
                selected c1 t.
Proof.
  intros Hc Hi Ho Ht Hf. unfold main. rewrite Hc.
  unfold bind at 1, resolve_selector.
  rewrite value_mk_token, Hi. cbn [negb]. rewrite value_consume, value_mk_token.
  unfold bind at 1. rewrite (get_own _ _ _ _ _ Ho), Ht. cbn [negb].
  now rewrite Hf.
Qed.

Lemma not_a_command (s : string) :
  includes availableCommands s = false ->
  (s =? "test") = false /\ (s =? "run") = false
  /\ (s =? "list") = false /\ (s =? "help") = false.
Proof.
  unfold includes, availableCommands. cbn [existsb]. intros H.
  repeat (apply orb_false_elim in H; destruct H as [? H]). auto.
Qed.

(** X7. After a selector any word is taken for the command.  One that is
    not a command is not reported: the loop does nothing with it (the
    [switch] has no [default]) and the program exits with status 0,
    printing nothing and starting nothing. *)
Theorem unknown_command_after_a_selector_is_ignored w argv c0 selected c1 t :
  find_index positional (map mk_token argv) = Some c0 ->
  includes availableCommands (nth c0 argv "") = false ->
  own_property (loadConfigurations w) (nth c0 argv "") = Some selected ->
  truthy selected = true ->
  find_index unconsumed_positional (consume c0 (map mk_token argv)) = Some c1 ->
  includes availableCommands (nth c1 argv "") = false ->
  main w argv t = (Exit 0, t).
Proof.
  intros Hc Hi Ho Ht Hf Hu.
  rewrite (main_with_selector _ _ _ _ _ _ Hc Hi Ho Ht Hf).
  destruct (not_a_command _ Hu) as (E1 & E2 & E3 & E4).
  unfold run_command, resolve_file.
  rewrite !value_consume, value_mk_token.
  unfold includes. cbn [existsb]. rewrite E1, E2. cbn [orb].
  rewrite bind_ret. cbn [fst snd].
  unfold configs_of. rewrite Ht, bind_ret.
  rewrite !value_consume, value_mk_token.
  unfold dispatch. cbn [loop]. rewrite E1, E2, E3, E4. reflexivity.
Qed.

Lemma found_file_token tokens f argv :
  find_index unconsumed_positional tokens = Some f ->
  (forall i, value (deref tokens i) = nth i argv "") ->
  deref (consume f tokens) f = file_token (nth f argv "").
Proof.
  intros Hf Hval.
  rewrite (token_eta (deref (consume f tokens) f)). unfold file_token. f_equal.
  - rewrite value_consume. apply Hval.
  - rewrite flags_consume.
    pose proof (find_index_holds _ _ _ (deref [] 0) Hf) as Hp.
    change (unconsumed_positional (deref tokens f) = true) in Hp.
    unfold unconsumed_positional in Hp. apply andb_prop in Hp.
    destruct Hp as [Hp _]. now apply negb_true_iff in Hp.
  - apply consumed_consume. eapply find_index_bound. exact Hf.
Qed.

(** X8. With a selector, [test] and [run] make one attempt, on the
    selected configuration and on no other of the store, with the
    arguments other than selector, command and file as extras: the
    program is that attempt, followed by [process.exit] with status 0
    when the attempt returned 0 and with status 1 otherwise.  (When a
    child of the attempt cannot be started the attempt does not return,
    and neither does the program: the process is dead.)  So when the
    selected configuration names its target and its scratch directory
    can be made, the first things the program does are to make that
    directory and to start the compiler for that configuration. *)
Theorem selector_limits_the_run_to_one_configuration
    w argv c0 selected c1 f t :
  find_index positional (map mk_token argv) = Some c0 ->
  includes availableCommands (nth c0 argv "") = false ->
  own_property (loadConfigurations w) (nth c0 argv "") = Some selected ->
  truthy selected = true ->
  find_index unconsumed_positional (consume c0 (map mk_token argv)) = Some c1 ->
  nth c1 argv "" = "test" \/ nth c1 argv "" = "run" ->
  find_index unconsumed_positional (consume c1 (consume c0 (map mk_token argv)))
  = Some f ->
  let extras := drop_positions [c0; c1; f] argv in
  let file := file_token (nth f argv "") in
  main w argv t
  = bind (attempt w (nth c1 argv "") (Some file) selected extras)
         (fun r => exit (if Nat.eqb r 0 then 0 else 1)%Z) t
  /\ (is_string (read (read selected "zig") "arch") = true ->
      is_string (read (read selected "zig") "platform") = true ->
      fs_mkdir w t (scratch_dir w selected) = None
      \/ fs_mkdir w t (scratch_dir w selected) = Some "EEXIST" ->
      exists evs,
        snd (main w argv t)
        = t ++ [ Mkdir (scratch_dir w selected);
                 Spawn "zig" (compiler_args w (nth c1 argv "") file selected extras) ]
            ++ evs).
Proof.
  intros Hc Hi Ho Ht Hf Hv Hfile extras file.
  assert (Hmain : main w argv t
                  = bind (attempt w (nth c1 argv "") (Some file) selected extras)
                         (fun r => exit (if Nat.eqb r 0 then 0 else 1)%Z) t).
  { rewrite (main_with_selector _ _ _ _ _ _ Hc Hi Ho Ht Hf).
    unfold run_command, resolve_file.
    rewrite !value_consume, value_mk_token.
    assert (Hrt : includes ["run"; "test"] (nth c1 argv "") = true)
      by (destruct Hv as [-> | ->]; reflexivity).
    rewrite Hrt, Hfile. monad_simpl. cbn [fst snd option_map].
    rewrite (found_file_token _ _ argv Hfile)
      by (intros i; now rewrite !value_consume, value_mk_token).
    rewrite !value_consume, value_mk_token.
    change (consume f (consume c1 (consume c0 (map mk_token argv))))
      with (consume_all [c0; c1; f] (map mk_token argv)).
    rewrite extras_drop_positions. fold extras. fold file.
    unfold configs_of. rewrite Ht, bind_ret.
    unfold dispatch. unfold bind at 1. rewrite (loop_cons _ _ _ _ _ _ _ _ _ Hv).
    unfold bind. destruct (attempt w (nth c1 argv "") (Some file) selected extras t)
      as [[r | e | c | u] t1]; reflexivity. }
  split; [exact Hmain |].
  intros Ha Hp Hm. rewrite Hmain.
  destruct (attempt_extends_build w (nth c1 argv "") (Some file) selected extras t Hv)
    as (evs & Hevs).
  rewrite (build_step_trace _ _ _ _ _ _ Ha Hp Hm) in Hevs.
  exists evs. rewrite <- app_assoc in Hevs. rewrite <- Hevs.
  unfold bind. destruct (attempt w (nth c1 argv "") (Some file) selected extras t)
    as [[r | e | c | u] t1]; reflexivity.
Qed.

(** ** The listing, end to end *)

Lemma main_with_command w argv c0 t :
  find_index positional (map mk_token argv) = Some c0 ->
  includes availableCommands (nth c0 argv "") = true ->
  main w argv t
  = run_command w (loadConfigurations w) (map mk_token argv) VUndefined c0 t.
Proof.
  intros Hc Hi. apply (main_after_selector _ _ _ _ _ _ t t Hc).
  apply resolve_selector_command. now rewrite value_mk_token.
Qed.

(** From the point where the command is [list]: the store is rendered
    once as soon as there is a configuration to loop over. *)
Lemma run_command_list w store tokens selected command config rest t :
  value (deref tokens command) = "list" ->
  configs_of selected store t = (Ret (config :: rest), t) ->
  run_command w store tokens selected command t
  = bind (listConfigurations store) (fun _ => ret tt) t.
Proof.
  intros Hv Hcs. unfold run_command, resolve_file.
  rewrite !value_consume, Hv. cbn [includes existsb String.eqb Ascii.eqb Bool.eqb orb].
  rewrite bind_ret. cbn [fst snd]. unfold bind at 1. rewrite Hcs.
  rewrite value_consume, Hv. apply list_with_configurations.
Qed.

Lemma populated_truthy (v : Value) : populated v = true -> truthy v = true.
Proof.
  unfold populated. intros H. repeat (apply andb_prop in H; destruct H as [H _]).
  pose proof (read_parent _ _ (string_field_parent _ _ H)) as Hn.
  destruct v; try discriminate; try reflexivity; exfalso; revert H; vm_compute;
    discriminate.
Qed.

Lemma assoc_populated (ps : list (string * Value)) (k : string) (v : Value) :
  forallb (fun p => populated (snd p)) ps = true ->
  assoc k ps = Some v -> populated v = true.
Proof.
  induction ps as [| [k' v'] r IH]; cbn; [discriminate |].
  intros H. apply andb_prop in H. destruct H as [Hv Hr].
  destruct (k' =? k); [now intros [= <-] | now apply IH].
Qed.

(** X9. [zdq list] on a store of populated configurations, at least one:
    every configuration is printed, in the order of the store, five
    lines each, and the function returns; nothing else happens. *)
Theorem list_prints_every_configuration w argv c0 ps t :
  find_index positional (map mk_token argv) = Some c0 ->
  nth c0 argv "" = "list" ->
  loadConfigurations w = VObj ps ->
  ps <> [] ->
  forallb (fun p => populated (snd p)) ps = true ->
  main w argv t = (Ret tt, t ++ flat_map listing_of ps).
Proof.
  intros Hc Hv Hs Hne Hp.
  rewrite (main_with_command _ _ _ _ Hc) by now rewrite Hv.
  destruct ps as [| [name config] rest]; [contradiction |].
  rewrite (run_command_list _ _ _ _ _ config (map snd rest)).
  - rewrite Hs. unfold bind. now rewrite (listConfigurations_populated _ _ Hp).
  - now rewrite value_mk_token.
  - now rewrite Hs.
Qed.

(** X10. A selector in front of [list] changes nothing: the whole store is
    listed, not the selected configuration alone. *)
Theorem selector_does_not_narrow_the_listing w argv c0 c1 ps selected t :
  find_index positional (map mk_token argv) = Some c0 ->
  includes availableCommands (nth c0 argv "") = false ->
  loadConfigurations w = VObj ps ->
  forallb (fun p => populated (snd p)) ps = true ->
  assoc (nth c0 argv "") ps = Some selected ->
  find_index unconsumed_positional (consume c0 (map mk_token argv)) = Some c1 ->
  nth c1 argv "" = "list" ->
  main w argv t = (Ret tt, t ++ flat_map listing_of ps).
Proof.
  intros Hc Hi Hs Hp Ha Hf Hv.
  pose proof (populated_truthy _ (assoc_populated _ _ _ Hp Ha)) as Ht.
  assert (Ho : own_property (loadConfigurations w) (nth c0 argv "") = Some selected)
    by now rewrite Hs.
  rewrite (main_with_selector _ _ _ _ _ _ Hc Hi Ho Ht Hf).
  rewrite (run_command_list _ _ _ _ _ selected []).
  - rewrite Hs. unfold bind. now rewrite (listConfigurations_populated _ _ Hp).
  - now rewrite value_consume, value_mk_token.
  - unfold configs_of. now rewrite Ht.
Qed.

Lemma list_entries_app (a b : list (string * Value)) (t : Trace) :
  list_entries (a ++ b) t = bind (list_entries a) (fun _ => list_entries b) t.
Proof.
  revert t. induction a as [| [name d] r IH]; intros t; cbn [app list_entries].
  - reflexivity.
  - rewrite bind_assoc. apply bind_ext. intros _ t1. apply IH.
Qed.

Lemma list_entry_without_zig name descriptor t :
  is_nullish (read descriptor "zig") = true ->
  list_entry name descriptor t
  = (Throw TypeError,
     t ++ (if is_nullish descriptor then [] else [Stdout (name ++ ":" ++ nl)%string])).
Proof.
  intros Hz. unfold list_entry, destructure, prop.
  destruct (is_nullish descriptor) eqn:Ed.
  - rewrite (field_nullish _ _ Ed). cbn. now rewrite app_nil_r.
  - rewrite !(field_read _ _ Ed). cbn [lift]. monad_simpl. cbn [fst snd].
    unfold print. rewrite bind_emit. unfold pair_text, prop.
    now rewrite (field_nullish _ _ Hz).
Qed.

(** X11. The listing is not all or nothing.  When an entry of the store has
    no [zig] record, [zdq list] prints the populated entries in front of
    it, then the name of the entry (unless the entry is [null], which
    fails before its name is printed) and ends with a [TypeError] that
    nothing catches; the entries behind it are not printed. *)
Theorem listing_stops_at_an_entry_without_zig w argv c0 good name bad rest t :
  find_index positional (map mk_token argv) = Some c0 ->
  nth c0 argv "" = "list" ->
  loadConfigurations w = VObj (good ++ (name, bad) :: rest) ->
  forallb (fun p => populated (snd p)) good = true ->
  is_nullish (read bad "zig") = true ->
  main w argv t
  = (Throw TypeError,
     t ++ flat_map listing_of good
       ++ (if is_nullish bad then [] else [Stdout (name ++ ":" ++ nl)%string])).
Proof.
  intros Hc Hv Hs Hp Hz.
  rewrite (main_with_command _ _ _ _ Hc) by now rewrite Hv.
  destruct (map snd (good ++ (name, bad) :: rest)) as [| config others] eqn:Ecs.
  { destruct good; discriminate Ecs. }
  rewrite (run_command_list _ _ _ _ _ config others).
  - rewrite Hs. unfold listConfigurations. cbn [object_entries lift].
    rewrite bind_assoc, bind_ret. unfold bind at 1.
    rewrite list_entries_app. unfold bind at 1.
    pose proof (listConfigurations_populated good t Hp) as Hg.
    unfold listConfigurations in Hg. cbn [object_entries lift] in Hg.
    rewrite bind_ret in Hg. rewrite Hg.
    cbn [list_entries]. unfold bind at 1.
    rewrite (list_entry_without_zig _ _ _ Hz). now rewrite app_assoc.
  - now rewrite value_mk_token.
  - unfold configs_of. cbn [truthy]. rewrite Hs.
    cbn [object_values object_entries option_map lift]. now rewrite Ecs.
Qed.

(** ** What holds for every invocation *)


(** As [emits_bind], the continuation being looked at only for the
    values the first part returns. *)
Lemma emits_bind_returned {A B : Type} P (m : M A) (f : A -> M B) :
  emits P m ->
  (forall t a t', m t = (Ret a, t') -> emits P (f a)) ->
  emits P (bind m f).
Proof.
  intros Hm Hf t r t' H.
  destruct (bind_cases _ _ _ _ _ H)
    as [(a & t0 & Em & Ef) | [(e & Em & _) | [(c & Em & _) | (u & Em & _)]]].
  - destruct (Hm _ _ _ Em) as (evs1 & -> & H1).
    destruct (Hf _ _ _ Em _ _ _ Ef) as (evs2 & -> & H2).
    exists (evs1 ++ evs2). split; [now rewrite app_assoc |].
    apply Forall_app. now split.
  - exact (Hm _ _ _ Em).
  - exact (Hm _ _ _ Em).
  - exact (Hm _ _ _ Em).
Qed.

Section Output.

Variable P : Event -> Prop.
Hypothesis P_stdout : forall s, P (Stdout s).
Hypothesis P_stderr : forall s, P (Stderr s).

Lemma emits_resolve_selector w store tokens command :
  emits P (resolve_selector w store tokens command).
Proof.
  unfold resolve_selector.
  destruct (negb _); [| apply emits_ret].
  apply emits_bind; [now apply emits_get |]. intros selected.
  destruct (negb _).
  - apply emits_bind; [now apply emits_listing |]. intros _.
    apply emits_bind; [apply emits_emit, P_stderr |]. intros _. apply emits_exit.
  - destruct (find_index _ _); [apply emits_ret |].
    apply emits_bind; [now apply emits_help |]. intros _.
    apply emits_bind; [apply emits_emit, P_stderr |]. intros _. apply emits_exit.
Qed.


(** A command other than [test] and [run] makes no attempt. *)
Lemma emits_loop_without_attempt w store command file extras configs :
  (command =? "test") = false -> (command =? "run") = false ->
  forall failures, emits P (loop w store command file extras configs failures).
Proof.
  intros E1 E2.
  induction configs as [| config rest IH]; intros failures; cbn [loop].
  - apply emits_ret.
  - rewrite E1, E2.
    destruct (command =? "list").
    { apply emits_bind; [now apply emits_listing | intros; apply emits_ret]. }
    destruct (command =? "help").
    { apply emits_bind; [now apply emits_help | intros; apply emits_ret]. }
    apply IH.
Qed.

Lemma emits_dispatch_tail (r : option nat) :
  emits P (match r with
           | None => ret tt
           | Some failures => exit (if Nat.eqb failures 0 then 0 else 1)%Z
           end).
Proof. destruct r; [apply emits_exit | apply emits_ret]. Qed.

End Output.

(** The command reference the selector phase returns points at a
    positional token inside the list, and the tokens it returns are
    those of the arguments, with at most one position consumed. *)
Lemma resolved_command w store argv c0 t tokens selected command t' :
  find_index positional (map mk_token argv) = Some c0 ->
  resolve_selector w store (map mk_token argv) c0 t
  = (Ret (tokens, selected, command), t') ->
  command < length argv
  /\ flags (deref tokens command) = false
  /\ (tokens = map mk_token argv \/ tokens = consume c0 (map mk_token argv)).
Proof.
  intros Hc Hr.
  pose proof (find_index_bound _ _ _ Hc) as Hb. rewrite length_map in Hb.
  pose proof (find_index_holds _ _ _ (deref [] 0) Hc) as Hp.
  change (positional (deref (map mk_token argv) c0) = true) in Hp.
  apply negb_true_iff in Hp.
  destruct (resolve_selector_returns _ _ _ _ _ _ _ _ _ Hr) as (_ & [H | H]).
  - destruct H as (_ & -> & _ & ->). auto.
  - destruct H as (_ & -> & _ & _ & Hf).
    pose proof (find_index_bound _ _ _ Hf) as Hb'.
    pose proof (find_index_holds _ _ _ (deref [] 0) Hf) as Hp'.
    change (unconsumed_positional (deref (consume c0 (map mk_token argv)) command) = true)
      in Hp'.
    unfold unconsumed_positional in Hp'. apply andb_prop in Hp'.
    destruct Hp' as [Hp' _]. apply negb_true_iff in Hp'.
    assert (Hl : forall i (ts : list Token), length (consume i ts) = length ts).
    { intros i ts. revert i. induction ts as [| x r IH]; intros [| i]; cbn; auto. }
    rewrite Hl, length_map in Hb'. auto.
Qed.


(** *** Flags *)







(** *** The host *)

Lemma main_output_only w argv :
  ~ In "test" argv -> ~ In "run" argv -> emits is_output (main w argv).
Proof.
  intros Ht Hr.
  assert (Pout : forall s, is_output (Stdout s)) by (intros; exact I).
  assert (Perr : forall s, is_output (Stderr s)) by (intros; exact I).
  unfold main.
  destruct (find_index positional (map mk_token argv)) as [c0 |] eqn:Hc.
  2: { apply emits_bind; [now apply emits_help | intros; apply emits_exit]. }
  apply emits_bind_returned; [now apply emits_resolve_selector |].
  intros t [[tokens selected] command] t' Hres.
  destruct (resolved_command _ _ _ _ _ _ _ _ _ Hc Hres) as (Hb & _ & Htok).
  assert (Hval : value (deref tokens command) = nth command argv "").
  { destruct Htok as [-> | ->]; now rewrite ?value_consume, value_mk_token. }
  pose proof (nth_In argv "" Hb) as Hin.
  assert (E1 : (value (deref tokens command) =? "test") = false).
  { apply String.eqb_neq. rewrite Hval. intros E. apply Ht. now rewrite <- E. }
  assert (E2 : (value (deref tokens command) =? "run") = false).
  { apply String.eqb_neq. rewrite Hval. intros E. apply Hr. now rewrite <- E. }
  unfold run_command, resolve_file. rewrite !value_consume.
  cbn [includes existsb]. rewrite E1, E2. cbn [orb].
  apply emits_bind_ret. cbn [fst snd].
  apply emits_bind; [now apply emits_configs_of |]. intros configs.
  unfold dispatch. rewrite value_consume.
  apply emits_bind; [| intros r; now apply emits_dispatch_tail].
  now apply emits_loop_without_attempt.
Qed.

(** X5. The program creates a directory or starts a process only when one of
    the arguments is the word [test] or the word [run]: listing, help
    and every usage error leave the host untouched. *)
Theorem only_test_and_run_touch_the_host w argv t r evs :
  main w argv t = (r, t ++ evs) ->
  Exists touches_host evs ->
  In "test" argv \/ In "run" argv.
Proof.
  intros H Hex.
  destruct (in_dec string_dec "test" argv) as [Ht | Ht]; [now left |].
  destruct (in_dec string_dec "run" argv) as [Hr | Hr]; [now right |].
  exfalso.
  destruct (main_output_only w argv Ht Hr _ _ _ H) as (evs' & E & Hall).
  apply app_inv_head in E. subst evs'.
  apply Exists_exists in Hex. destruct Hex as (e & He & Hh).
  rewrite Forall_forall in Hall. specialize (Hall e He).
  destruct e; contradiction.
Qed.

(** ** Extras, from the command line to the compiler *)

(** A [test] or [run] invocation that finds its file is: list the
    configurations, then dispatch, with the file token and with the
    arguments at the positions not taken by selector, command and file,
    in their order, as extras. *)
Lemma main_reaches_dispatcher w argv c0 tokens selected command file t t' :
  find_index positional (map mk_token argv) = Some c0 ->
  resolve_selector w (loadConfigurations w) (map mk_token argv) c0 t
  = (Ret (tokens, selected, command), t') ->
  nth command argv "" = "test" \/ nth command argv "" = "run" ->
  find_index unconsumed_positional (consume command tokens) = Some file ->
  main w argv t
  = bind (configs_of selected (loadConfigurations w))
         (dispatch w (loadConfigurations w) (nth command argv "")
                   (Some (file_token (nth file argv "")))
                   (drop_positions (selector_positions argv c0 ++ [command; file]) argv))
         t.
Proof.
  intros Hc Hr Hv Hf.
  assert (Ht : tokens = consume_all (selector_positions argv c0) (map mk_token argv)).
  { destruct (resolve_selector_returns _ _ _ _ _ _ _ _ _ Hr) as (_ & [H | H]);
      unfold selector_positions; rewrite <- value_mk_token.
    - destruct H as (-> & -> & _). reflexivity.
    - destruct H as (-> & -> & _). reflexivity. }
  assert (Hval : forall i, value (deref tokens i) = nth i argv "").
  { intros i. now rewrite Ht, value_consume_all, value_mk_token. }
  rewrite (main_after_selector _ _ _ _ _ _ _ _ Hc Hr).
  unfold run_command, resolve_file.
  rewrite value_consume, Hval, Hf.
  assert (Hi : includes ["run"; "test"] (nth command argv "") = true)
    by (destruct Hv as [-> | ->]; reflexivity).
  rewrite Hi. monad_simpl. cbn [fst snd option_map].
  rewrite (found_file_token _ _ argv Hf)
    by (intros i; now rewrite value_consume, Hval).
  rewrite !value_consume, Hval.
  replace (consume file (consume command tokens))
    with (consume_all (selector_positions argv c0 ++ [command; file])
                      (map mk_token argv))
    by (rewrite consume_all_app, <- Ht; reflexivity).
  now rewrite extras_drop_positions.
Qed.

Lemma loop_passes_extras w store command file extras configs :
  forall failures,
    emits (compiler_args_end_with (value file) extras)
          (loop w store command (Some file) extras configs failures).
Proof.
  destruct (command =? "test") eqn:E1; [| destruct (command =? "run") eqn:E2].
  - induction configs as [| config rest IH]; intros failures; cbn [loop].
    + apply emits_ret.
    + rewrite E1. apply emits_bind; [| intros; apply IH].
      apply (attempt_passes_extras w "test"). now left.
  - induction configs as [| config rest IH]; intros failures; cbn [loop].
    + apply emits_ret.
    + rewrite E1, E2. apply emits_bind; [| intros; apply IH].
      apply (attempt_passes_extras w "run"). now right.
  - intros failures. apply emits_loop_without_attempt; auto. intros s. exact I.
Qed.

(** On a host where the children start and the directories can be made,
    the loop of [test] and [run] starts the compiler for every
    configuration that names its target, with [compiler_args]. *)
Lemma loop_compiles_each w store command file extras :
  starts_children w -> makes_directories w ->
  command = "test" \/ command = "run" ->
  forall configs n t, exists r evs,
    loop w store command (Some file) extras configs n t = (r, t ++ evs)
    /\ forall config,
         In config configs ->
         is_string (read (read config "zig") "arch") = true ->
         is_string (read (read config "zig") "platform") = true ->
         In (Spawn "zig" (compiler_args w command file config extras)) evs.
Proof.
  intros Hs Hm Hc configs.
  induction configs as [| config rest IH]; intros n t.
  - exists (Ret (Some n)), []. split; [cbn; now rewrite app_nil_r |].
    intros config [].
  - rewrite (loop_cons _ _ _ _ _ _ _ _ _ Hc). unfold bind.
    rewrite (attempt_result _ _ _ _ _ _ Hs Hc).
    assert (Ht : exists evs1,
               snd (attempt w command (Some file) config extras t) = t ++ evs1
               /\ (is_string (read (read config "zig") "arch") = true ->
                   is_string (read (read config "zig") "platform") = true ->
                   In (Spawn "zig" (compiler_args w command file config extras)) evs1)).
    { destruct (attempt_extends_build w command (Some file) config extras t Hc)
        as (evs & Hevs).
      destruct (is_string (read (read config "zig") "arch")) eqn:Ea;
        [destruct (is_string (read (read config "zig") "platform")) eqn:Ep |].
      - rewrite (build_step_trace _ _ _ _ _ _ Ea Ep (Hm _ _)) in Hevs.
        rewrite <- app_assoc in Hevs. eexists. split; [exact Hevs |].
        intros _ _. cbn. auto.
      - assert (He : emits (fun _ => True) (attempt w command (Some file) config extras)).
        { eapply emits_ext; [intros t0; apply (attempt_steps _ _ _ _ _ _ Hc) |].
          unfold build_step, run_step.
          apply emits_try_catch; [| intros; apply emits_ret].
          emits_tac; exact I. }
        destruct (attempt w command (Some file) config extras t) as [r1 t1] eqn:E1.
        destruct (He _ _ _ E1) as (evs1 & -> & _).
        exists evs1. split; [reflexivity | discriminate].
      - assert (He : emits (fun _ => True) (attempt w command (Some file) config extras)).
        { eapply emits_ext; [intros t0; apply (attempt_steps _ _ _ _ _ _ Hc) |].
          unfold build_step, run_step.
          apply emits_try_catch; [| intros; apply emits_ret].
          emits_tac; exact I. }
        destruct (attempt w command (Some file) config extras t) as [r1 t1] eqn:E1.
        destruct (He _ _ _ E1) as (evs1 & -> & _).
        exists evs1. split; [reflexivity | discriminate]. }
    destruct Ht as (evs1 & -> & H1).
    destruct (IH (n + (if step_fails w command (Some file) extras config t
                       then 1 else 0)) (t ++ evs1)) as (r & evs2 & -> & H2).
    exists r, (evs1 ++ evs2). split; [now rewrite app_assoc |].
    intros c [<- | Hin] Ha Hp; apply in_or_app; [left | right]; auto.
Qed.

(** C7. In a [test] or [run] invocation that finds its file, every
    compiler start the program makes has arguments that end with the
    file and then the extras, which are the arguments at the positions
    not consumed as selector, command or file, in their original order;
    and on a host where the children start and the directories can be
    made, the program does start the compiler, with the argument list
    [compiler_args] that ends so, for every configuration it works on
    that names its target. *)
Theorem extras_are_the_unconsumed_tokens
    w argv c0 tokens selected command file t t' :
  find_index positional (map mk_token argv) = Some c0 ->
  resolve_selector w (loadConfigurations w) (map mk_token argv) c0 t
  = (Ret (tokens, selected, command), t') ->
  nth command argv "" = "test" \/ nth command argv "" = "run" ->
  find_index unconsumed_positional (consume command tokens) = Some file ->
  let extras := drop_positions (selector_positions argv c0 ++ [command; file]) argv in
  let ftok := file_token (nth file argv "") in
  exists r evs,
    main w argv t = (r, t ++ evs)
    /\ Forall (compiler_args_end_with (nth file argv "") extras) evs
    /\ (starts_children w -> makes_directories w ->
        forall configs,
          configs_of selected (loadConfigurations w) t = (Ret configs, t) ->
          forall config,
            In config configs ->
            is_string (read (read config "zig") "arch") = true ->
            is_string (read (read config "zig") "platform") = true ->
            In (Spawn "zig"
                  (compiler_args w (nth command argv "") ftok config extras))
               evs).
Proof.
  intros Hc Hr Hv Hf extras ftok.
  pose proof (main_reaches_dispatcher _ _ _ _ _ _ _ _ _ Hc Hr Hv Hf) as Hmain.
  fold extras in Hmain. fold ftok in Hmain.
  assert (He : emits (compiler_args_end_with (nth file argv "") extras)
                 (bind (configs_of selected (loadConfigurations w))
                       (dispatch w (loadConfigurations w) (nth command argv "")
                                 (Some ftok) extras))).
  { apply emits_bind; [apply emits_configs_of |]. intros configs.
    unfold dispatch. apply emits_bind.
    - apply (loop_passes_extras w _ _ ftok).
    - intros r. apply emits_dispatch_tail. }
  destruct (main w argv t) as [r tm] eqn:Em.
  symmetry in Hmain. destruct (He _ _ _ Hmain) as (evs & -> & Hall).
  exists r, evs. split; [reflexivity |]. split; [exact Hall |].
  intros Hs Hm configs Hcs config Hin Ha Hp.
  unfold bind at 1 in Hmain. rewrite Hcs in Hmain.
  unfold dispatch, bind in Hmain.
  destruct (loop_compiles_each w (loadConfigurations w) (nth command argv "")
              ftok extras Hs Hm Hv configs 0 t) as (rl & evl & El & Hl).
  rewrite El in Hmain.
  assert (Heq : t ++ evl = t ++ evs).
  { destruct rl as [[k |] | e | c | u]; unfold ret, exit in Hmain; congruence. }
  apply app_inv_head in Heq. subst evl. now apply Hl.
Qed.

Lemma extras_are_the_unconsumed_tokens_witness :
  In (Spawn "zig" [ VStr "build-exe"; VStr "-target"; VStr "x86_64-linux";
                    VStr "-femit-bin=/tmp/zdq/x86_64/linux/a"; VStr "a.src";
                    VStr "--verbose"; VStr "--release"; VStr "more" ])
     (snd (main bare_host
             ["amd64"; "--verbose"; "run"; "a.src"; "--release"; "more"] [])).
Proof.
  destruct (extras_are_the_unconsumed_tokens bare_host
              ["amd64"; "--verbose"; "run"; "a.src"; "--release"; "more"] 0
              (consume 0 (map mk_token
                            ["amd64"; "--verbose"; "run"; "a.src"; "--release"; "more"]))
              default_amd64 2 3 [] [] eq_refl eq_refl (or_intror eq_refl) eq_refl)
    as (r & evs & Hm & _ & Hl).
  rewrite Hm. cbn [snd app].
  apply (Hl (fun cmd t args => ltac:(discriminate))
            (fun t path => or_introl eq_refl)
            [default_amd64] eq_refl default_amd64 (or_introl eq_refl)
            eq_refl eq_refl).
Defined.

(** ** Stores the program does not expect *)

(** X13. The store file may hold any JSON value.  When it holds [null], no
    command works: whatever the first positional word is, the program
    ends with a [TypeError] that nothing catches, having printed
    nothing, or (for [test] and [run] without a file) with the usage
    error for the missing file.  Only an invocation without any
    positional word, which never loads the store, is spared. *)
Theorem null_store_breaks_every_command w argv c0 t :
  find_index positional (map mk_token argv) = Some c0 ->
  is_nullish (loadConfigurations w) = true ->
  main w argv t = (Throw TypeError, t)
  \/ main w argv t
     = (Exit 1, t ++ [Stderr ("error: expected filename" ++ nl)%string]).
Proof.
  intros Hc Hn.
  assert (Hget : forall key, get w (loadConfigurations w) key t = (Throw TypeError, t)).
  { intros key. destruct (loadConfigurations w); try discriminate; reflexivity. }
  assert (Hvals : object_values (loadConfigurations w) = None).
  { destruct (loadConfigurations w); try discriminate; reflexivity. }
  destruct (includes availableCommands (nth c0 argv "")) eqn:Hi.
  - rewrite (main_with_command _ _ _ _ Hc Hi).
    unfold run_command, resolve_file. rewrite value_consume, value_mk_token.
    destruct (includes ["run"; "test"] (nth c0 argv "")).
    + destruct (find_index unconsumed_positional _) as [file |]; [left | now right].
      rewrite bind_ret. cbn [fst snd]. unfold configs_of. cbn [truthy].
      now rewrite Hvals.
    + left. rewrite bind_ret. cbn [fst snd]. unfold configs_of. cbn [truthy].
      now rewrite Hvals.
  - left. unfold main. rewrite Hc. unfold bind at 1, resolve_selector.
    rewrite value_mk_token, Hi. cbn [negb]. unfold bind at 1.
    now rewrite Hget.
Qed.

(** X12. Without a readable store file, [zdq list] shows the one built-in
    configuration: named after the container architecture, which is the
    one the host does not have ([arm64] on an [x64] host, [amd64] on any
    other), compiled for the matching Zig target, run in the [ubuntu]
    image on [linux]. *)
Theorem fallback_store_is_listed w argv c0 t :
  find_index positional (map mk_token argv) = Some c0 ->
  nth c0 argv "" = "list" ->
  read_store w = None ->
  let x64 := os_arch w =? "x64" in
  main w argv t
  = (Ret tt,
     t ++ map Stdout
       [ ((if x64 then "arm64" else "amd64") ++ ":" ++ nl)%string;
         ("    Zig compile target: " ++ (if x64 then "aarch64" else "x86_64")
          ++ "-linux" ++ nl)%string;
         ("    Docker environment: linux/" ++ (if x64 then "arm64" else "amd64")
          ++ nl)%string;
         ("                 image: ubuntu" ++ nl)%string;
         nl ]).
Proof.
  intros Hc Hv Hs x64.
  rewrite (main_with_command _ _ _ _ Hc) by now rewrite Hv.
  assert (Hstore : loadConfigurations w
                   = VObj [(if x64 then "arm64" else "amd64", getDefaultConfig w)]).
  { unfold loadConfigurations, getDefaultConfig, x64. rewrite Hs.
    destruct (os_arch w =? "x64"); reflexivity. }
  rewrite (run_command_list _ _ _ _ _ (getDefaultConfig w) []).
  - rewrite Hstore. unfold bind.
    rewrite listConfigurations_populated.
    + unfold getDefaultConfig. fold x64. destruct x64; reflexivity.
    + unfold getDefaultConfig. destruct (os_arch w =? "x64"); reflexivity.
  - now rewrite value_mk_token.
  - unfold configs_of. cbn [truthy]. now rewrite Hstore.
Qed.

(** ** The further properties at concrete inputs *)

Lemma exit_status_is_0_or_1_witness :
  main bare_host ["amd64"; "run"] []
  = (Exit 1, [Stderr ("error: expected filename" ++ nl)%string])
  /\ (1 = 0 \/ 1 = 1)%Z.
Proof.
  assert (H : main bare_host ["amd64"; "run"] []
              = (Exit 1, [Stderr ("error: expected filename" ++ nl)%string]))
    by (vm_compute; reflexivity).
  split; [exact H |].
  exact (exit_status_is_0_or_1 bare_host ["amd64"; "run"] [] 1 _ H).
Defined.

Lemma log_lines_only_with_exit_1_witness :
  Exists is_log_line [Stderr ("error: expected filename" ++ nl)%string]
  /\ @Exit unit 1 = Exit 1.
Proof.
  assert (E : Exists is_log_line [Stderr ("error: expected filename" ++ nl)%string])
    by (apply Exists_cons_hd; exact I).
  split; [exact E |].
  apply (log_lines_only_with_exit_1 bare_host ["amd64"; "run"] [] (Exit 1)
           [Stderr ("error: expected filename" ++ nl)%string]).
  - vm_compute. reflexivity.
  - exact E.
Defined.

Lemma flags_alone_print_the_help_witness :
  main bare_host ["--release"; "-O"] [] = (Exit 0, [] ++ map Stdout help_text).
Proof.
  apply (flags_alone_print_the_help bare_host ["--release"; "-O"] []).
  reflexivity.
Defined.

Lemma list_and_help_only_print_witness :
  emits is_stdout
        (run_command bare_host (loadConfigurations bare_host)
                     (consume 0 (map mk_token ["amd64"; "help"])) default_amd64 1)
  /\ exits_with (fun c => c = 0%Z)
        (run_command bare_host (loadConfigurations bare_host)
                     (consume 0 (map mk_token ["amd64"; "help"])) default_amd64 1).
Proof.
  apply (list_and_help_only_print bare_host (loadConfigurations bare_host)
           (consume 0 (map mk_token ["amd64"; "help"])) default_amd64 1).
  right. reflexivity.
Defined.

Lemma attempt_adds_a_prefix_of_four_events_witness :
  exists dir zig_args line docker_args evs rest,
    [ Mkdir "/tmp/zdq/x86_64/linux";
      Spawn "zig" [ VStr "build-exe"; VStr "-target"; VStr "x86_64-linux";
                    VStr "-femit-bin=/tmp/zdq/x86_64/linux/a"; VStr "a.src" ] ]
    = [] ++ evs
    /\ evs ++ rest = [ Mkdir dir; Spawn "zig" zig_args;
                       Stdout line; Spawn "docker" docker_args ].
Proof.
  apply (attempt_adds_a_prefix_of_four_events failing_compiler_host "run"
           (Some (file_token "a.src")) default_amd64 [] [] (Ret 1)).
  - right. reflexivity.
  - vm_compute. reflexivity.
Defined.

Lemma success_means_both_children_closed_cleanly_witness :
  exists dir zig_args line docker_args,
    snd (attempt bare_host "test" (Some (file_token "a.zig")) default_amd64 [] [])
    = [] ++ [ Mkdir dir; Spawn "zig" zig_args;
              Stdout line; Spawn "docker" docker_args ]
    /\ closes_ok (child_close bare_host ([] ++ [Mkdir dir]) "zig" zig_args) = true
    /\ closes_ok (child_close bare_host
                    ([] ++ [Mkdir dir; Spawn "zig" zig_args; Stdout line])
                    "docker" docker_args) = true.
Proof.
  apply (success_means_both_children_closed_cleanly bare_host "test"
           (Some (file_token "a.zig")) default_amd64 [] []).
  - left. reflexivity.
  - vm_compute. reflexivity.
Defined.

Lemma attempt_on_a_populated_configuration_witness :
  attempt bare_host "test" (Some (file_token "a.zig")) default_amd64
          ["-O"; "ReleaseSafe"] []
  = (Ret 0,
     [ Mkdir "/tmp/zdq/x86_64/linux";
       Spawn "zig" [ VStr "test"; VStr "--test-no-exec";
                     VStr "-target"; VStr "x86_64-linux";
                     VStr "-femit-bin=/tmp/zdq/x86_64/linux/a.test";
                     VStr "a.zig"; VStr "-O"; VStr "ReleaseSafe" ];
       Stdout ("Running test in linux/amd64:" ++ nl)%string;
       Spawn "docker" [ VStr "run"; VStr "--platform"; VStr "linux/amd64";
                        VStr "-v";
                        VStr "/tmp/zdq/x86_64/linux:/home/zdq/x86_64/linux";
                        VStr "-w"; VStr "/home/zdq/x86_64/linux";
                        VStr "--rm"; VStr "-t"; VStr "-q";
                        VStr "ubuntu"; VStr "./a.test" ] ]).
Proof.
  etransitivity.
  - apply (attempt_on_a_populated_configuration bare_host "test"
             (file_token "a.zig") default_amd64 ["-O"; "ReleaseSafe"] []).
    + left. reflexivity.
    + reflexivity.
    + left. reflexivity.
  - vm_compute. reflexivity.
Defined.

Lemma unmakeable_directory_stops_the_attempt_witness :
  attempt readonly_host "run" (Some (file_token "a.src")) default_amd64 [] []
  = (Ret 1, [] ++ [Mkdir (scratch_dir readonly_host default_amd64)]).
Proof.
  apply (unmakeable_directory_stops_the_attempt readonly_host "run"
           (file_token "a.src") default_amd64 [] [] "EACCES").
  - right. reflexivity.
  - reflexivity.
  - reflexivity.
  - reflexivity.
  - discriminate.
Defined.

Lemma unknown_command_after_a_selector_is_ignored_witness :
  main bare_host ["amd64"; "build"; "a.zig"] [] = (Exit 0, []).
Proof.
  apply (unknown_command_after_a_selector_is_ignored bare_host
           ["amd64"; "build"; "a.zig"] 0 default_amd64 1 []);
    vm_compute; reflexivity.
Defined.

Lemma selector_limits_the_run_to_one_configuration_witness :
  main named_host ["a"; "-O"; "run"; "a.src"; "more"] []
  = (Exit 0,
     [ Mkdir "/tmp/zdq/aarch64/linux";
       Spawn "zig" [ VStr "build-exe"; VStr "-target"; VStr "aarch64-linux";
                     VStr "-femit-bin=/tmp/zdq/aarch64/linux/a";
                     VStr "a.src"; VStr "-O"; VStr "more" ];
       Stdout ("Running executable in linux/arm64:" ++ nl)%string;
       Spawn "docker" [ VStr "run"; VStr "--platform"; VStr "linux/arm64";
                        VStr "-v";
                        VStr "/tmp/zdq/aarch64/linux:/home/zdq/aarch64/linux";
                        VStr "-w"; VStr "/home/zdq/aarch64/linux";
                        VStr "--rm"; VStr "-t";
                        VStr "ubuntu"; VStr "./a" ] ])
  /\ exists evs,
       snd (main named_host ["a"; "-O"; "run"; "a.src"; "more"] [])
       = [] ++ [ Mkdir "/tmp/zdq/aarch64/linux";
                 Spawn "zig" [ VStr "build-exe"; VStr "-target"; VStr "aarch64-linux";
                               VStr "-femit-bin=/tmp/zdq/aarch64/linux/a";
                               VStr "a.src"; VStr "-O"; VStr "more" ] ]
            ++ evs.
Proof.
  destruct (selector_limits_the_run_to_one_configuration named_host
              ["a"; "-O"; "run"; "a.src"; "more"] 0
              (reify (linux_config "aarch64" "arm64")) 2 3 []
              eq_refl eq_refl eq_refl eq_refl eq_refl (or_intror eq_refl) eq_refl)
    as [Hmain Hfirst].
  split.
  - etransitivity; [exact Hmain | vm_compute; reflexivity].
  - exact (Hfirst eq_refl eq_refl (or_introl eq_refl)).
Defined.

Lemma list_prints_every_configuration_witness :
  main named_host ["--plain"; "list"] []
  = (Ret tt,
     [] ++ flat_map listing_of
             [ ("b", reify (linux_config "x86_64" "amd64"));
               ("a", reify (linux_config "aarch64" "arm64")) ]).
Proof.
  apply (list_prints_every_configuration named_host ["--plain"; "list"] 1).
  - reflexivity.
  - reflexivity.
  - vm_compute. reflexivity.
  - discriminate.
  - reflexivity.
Defined.

Lemma selector_does_not_narrow_the_listing_witness :
  main named_host ["a"; "list"] []
  = (Ret tt,
     [] ++ flat_map listing_of
             [ ("b", reify (linux_config "x86_64" "amd64"));
               ("a", reify (linux_config "aarch64" "arm64")) ]).
Proof.
  apply (selector_does_not_narrow_the_listing named_host ["a"; "list"] 0 1 _
           (reify (linux_config "aarch64" "arm64"))).
  - reflexivity.
  - reflexivity.
  - vm_compute. reflexivity.
  - reflexivity.
  - reflexivity.
  - reflexivity.
  - reflexivity.
Defined.

Lemma listing_stops_at_an_entry_without_zig_witness :
  main partial_host ["list"] []
  = (Throw TypeError,
     [] ++ flat_map listing_of [("a", reify (linux_config "aarch64" "arm64"))]
        ++ (if is_nullish (VObj []) then []
            else [Stdout ("b" ++ ":" ++ nl)%string])).
Proof.
  apply (listing_stops_at_an_entry_without_zig partial_host ["list"] 0
           [("a", reify (linux_config "aarch64" "arm64"))] "b" (VObj [])
           [("c", reify (linux_config "x86_64" "amd64"))]).
  - reflexivity.
  - reflexivity.
  - vm_compute. reflexivity.
  - reflexivity.
  - reflexivity.
Defined.

Lemma only_test_and_run_touch_the_host_witness :
  In "test" ["run"; "a.src"] \/ In "run" ["run"; "a.src"].
Proof.
  apply (only_test_and_run_touch_the_host bare_host ["run"; "a.src"] []
           (fst (main bare_host ["run"; "a.src"] []))
           (snd (main bare_host ["run"; "a.src"] []))).
  - vm_compute. reflexivity.
  - vm_compute. apply Exists_cons_hd. exact I.
Defined.

Lemma null_store_breaks_every_command_witness :
  main null_store_host ["help"] [] = (Throw TypeError, [])
  \/ main null_store_host ["help"] []
     = (Exit 1, [] ++ [Stderr ("error: expected filename" ++ nl)%string]).
Proof.
  apply (null_store_breaks_every_command null_store_host ["help"] 0 []).
  - reflexivity.
  - vm_compute. reflexivity.
Defined.

Lemma fallback_store_is_listed_witness :
  main bare_host ["list"] []
  = (Ret tt,
     map Stdout
       [ ("amd64:" ++ nl)%string;
         ("    Zig compile target: x86_64-linux" ++ nl)%string;
         ("    Docker environment: linux/amd64" ++ nl)%string;
         ("                 image: ubuntu" ++ nl)%string;
         nl ]).
Proof.
  etransitivity.
  - apply (fallback_store_is_listed bare_host ["list"] 0 []); reflexivity.
  - vm_compute. reflexivity.
Defined.
